(** * mdrip: the managed shell and the line scanner

    A shallow embedding of package [shell] (the [ManagedShell] type with
    [NewManagedShell], [Start], [Execute] and [Stop]) and of the line
    scanner [BuffScanner], together with the parts of Go's [strings] and
    [io] packages that [Execute] calls.

    Go strings are byte sequences: they are modelled as [string], whose
    characters are the 256 values of [ascii]. *)

From Stdlib Require Import String Ascii List Bool Arith Lia Permutation.
Import ListNotations.

Local Open Scope list_scope.
Local Open Scope string_scope.

(** ** Characters that Rocq string literals cannot spell *)

Definition newline : string := String "010"%char EmptyString.
Definition dquote : string := String "034"%char EmptyString.

(** ** Package [strings] *)

Module strings.

(** [strings.Contains(s, substr)]: some suffix of [s] starts with [substr]. *)
Fixpoint Contains (s substr : string) : bool :=
  prefix substr s
  || match s with
     | EmptyString => false
     | String _ r => Contains r substr
     end.

(** The left-to-right scan of [strings.Replace(s, old, new, -1)] with an
    empty [new], for a
    non-empty [old]: [skip] counts the bytes of the occurrence being
    dropped that are still ahead; occurrences are looked for only outside
    a dropped occurrence, as [Index(s[start:], old)] does after
    [start = j + len(old)]. *)
Fixpoint remove_from (old : string) (skip : nat) (s : string) : string :=
  match s with
  | EmptyString => EmptyString
  | String c r =>
      match skip with
      | S k => remove_from old k r
      | O =>
          if prefix old s then remove_from old (String.length old - 1) r
          else String c (remove_from old 0 r)
      end
  end.

(** [strings.Replace(s, old, new, -1)] with an empty [new].  With
    [old == new] (both empty) Go returns [s] unchanged. *)
Definition Remove (s old : string) : string :=
  match old with
  | EmptyString => s
  | _ => remove_from old 0 s
  end.

(** The table [asciiSpace] of package [strings]. *)
Definition asciiSpace (c : ascii) : bool :=
  let n := nat_of_ascii c in
  ((n =? 9) || (n =? 10) || (n =? 11) || (n =? 12) || (n =? 13) || (n =? 32))%nat.

(** Width in bytes of the white-space rune that [s] starts with, 0 when
    [s] does not start with one.  [unicode.IsSpace] holds of the six
    ASCII characters above and of U+0085, U+00A0, U+1680, U+2000..U+200A,
    U+2028, U+2029, U+202F, U+205F and U+3000; a rune is recognised only
    in its canonical UTF-8 encoding, any other byte sequence decodes to
    another rune or to [RuneError]. *)
Definition spaceWidth (s : string) : nat :=
  match s with
  | EmptyString => 0
  | String c r =>
      if asciiSpace c then 1
      else
        match nat_of_ascii c, r with
        | 194, String d _ =>
            let d := nat_of_ascii d in
            if ((d =? 133) || (d =? 160))%nat then 2 else 0
        | 225, String d (String e _) =>
            if ((nat_of_ascii d =? 154) && (nat_of_ascii e =? 128))%nat then 3 else 0
        | 226, String d (String e _) =>
            let d := nat_of_ascii d in
            let e := nat_of_ascii e in
            if (((d =? 128)
                 && (((128 <=? e) && (e <=? 138))
                     || (e =? 168) || (e =? 169) || (e =? 175)))
                || ((d =? 129) && (e =? 159)))%nat
            then 3 else 0
        | 227, String d (String e _) =>
            if ((nat_of_ascii d =? 128) && (nat_of_ascii e =? 128))%nat then 3 else 0
        | _, _ => 0
        end
  end.

(** The same for the rune that a string ends with, read on the reversed
    string ([utf8.DecodeLastRuneInString] walks back to the rune start and
    accepts the rune when it ends exactly at the end of the string). *)
Definition spaceWidthLast (rs : string) : nat :=
  match rs with
  | EmptyString => 0
  | String c r =>
      if asciiSpace c then 1
      else
        match r with
        | String d (String e _) =>
            if (spaceWidth (String e (String d (String c EmptyString))) =? 3)%nat then 3
            else if (spaceWidth (String d (String c EmptyString)) =? 2)%nat then 2
            else 0
        | String d EmptyString =>
            if (spaceWidth (String d (String c EmptyString)) =? 2)%nat then 2 else 0
        | EmptyString => 0
        end
  end.

(** Drops leading runes while [width] says they are white space. *)
Fixpoint trim_with (width : string -> nat) (skip : nat) (s : string) : string :=
  match s with
  | EmptyString => EmptyString
  | String c r =>
      match skip with
      | S k => trim_with width k r
      | O =>
          match width s with
          | O => s
          | S k => trim_with width k r
          end
      end
  end.

Fixpoint rev_onto (s acc : string) : string :=
  match s with
  | EmptyString => acc
  | String c r => rev_onto r (String c acc)
  end.

Definition rev (s : string) : string := rev_onto s EmptyString.

Definition TrimLeftSpace (s : string) : string := trim_with spaceWidth 0 s.

Definition TrimRightSpace (s : string) : string :=
  rev (trim_with spaceWidthLast 0 (rev s)).

(** [strings.TrimSpace]: [TrimFunc(s, unicode.IsSpace)], that is
    [TrimRightFunc(TrimLeftFunc(s, f), f)]; the ASCII fast path of the
    library computes the same slice. *)
Definition TrimSpace (s : string) : string :=
  TrimRightSpace (TrimLeftSpace s).

End strings.

(** ** Errors, results and outcomes of calls *)

(** Go [error] values as the package meets them: [io.EOF], an
    [*exec.ExitError], any other error of the runtime or the operating
    system (known by its message), and the wrapping error that
    [fmt.Errorf("...: %w", err)] builds. *)
Inductive error : Type :=
| EOF
| ExitError (state : string)
| errorString (msg : string)
| wrapError (msg : string) (err : error).

(** The [Error()] method. *)
Fixpoint Error (e : error) : string :=
  match e with
  | EOF => "EOF"
  | ExitError state => state
  | errorString msg => msg
  | wrapError msg err => msg ++ ": " ++ Error err
  end.

(** [err == io.EOF]. *)
Definition is_EOF (e : error) : bool :=
  match e with
  | EOF => true
  | _ => false
  end.

(** The type assertion of [err] to [*exec.ExitError]. *)
Definition as_ExitError (e : error) : option string :=
  match e with
  | ExitError state => Some state
  | _ => None
  end.

(** A Go result pair [(value, err)] in which exactly one side is set. *)
Inductive Result (A : Type) : Type :=
| Ok (a : A)
| Failed (e : error).

Arguments Ok {A} a.
Arguments Failed {A} e.

(** How a call ends for its caller: it returns, it panics (a method is
    called through a nil pointer or a nil interface), or it never returns
    because a read it waits for never completes. *)
Inductive Outcome (A : Type) : Type :=
| Returns (a : A)
| Panics
| Blocks.

Arguments Returns {A} a.
Arguments Panics {A}.
Arguments Blocks {A}.

Definition bind {A B : Type} (m : Outcome A) (k : A -> Outcome B) : Outcome B :=
  match m with
  | Returns a => k a
  | Panics => Panics
  | Blocks => Blocks
  end.

Notation "x <- m ;; k" := (bind m (fun x => k))
  (at level 61, m at next level, right associativity).

Notation "' pat <- m ;; k" := (bind m (fun x => match x with pat => k end))
  (at level 61, pat pattern, m at next level, right associativity).

(** ** Package [io] *)

Module io.

(** What one [Read] call hands back: the bytes it stored and its error. *)
Definition ReadResult : Type := string * option error.

(** The reading end of a pipe, seen from the reader: the results of the
    [Read] calls still to come, in order.  After the last of them a
    [Read] does not return: the writer keeps its end open and writes
    nothing more. *)
Definition Pipe : Type := list ReadResult.

(** [io.ReadAll]: append what every [Read] stores until one reports an
    error; [io.EOF] is turned into a nil error.  The third component is
    what is left of the pipe. *)
Fixpoint ReadAll (p : Pipe) (b : string)
  : Outcome (string * option error * Pipe) :=
  match p with
  | [] => Blocks
  | (data, None) :: rest => ReadAll rest (b ++ data)
  | (data, Some err) :: rest =>
      Returns (b ++ data, if is_EOF err then None else Some err, rest)
  end.

(** The bytes that a reader keeps from a run of [Read] results when it
    stores what a [Read] hands back only if the [Read] reports no error. *)
Fixpoint stored (p : Pipe) : string :=
  match p with
  | [] => EmptyString
  | (data, None) :: rest => data ++ stored rest
  | (_, Some _) :: rest => stored rest
  end.

(** The [Read] reports no error. *)
Definition no_error (r : ReadResult) : Prop := snd r = None.

End io.

(** ** Package [shell] *)

Module shell.

Definition Handle : Type := nat.

(** The part of [exec.Cmd] that the package looks at. *)
Record Cmd : Type := {
  Path : string;
  Process : option nat
}.

Record ManagedShell : Type := {
  cmd : option Cmd;
  stdin : option Handle;
  stdout : option Handle;
  stderr : option Handle
}.

(** Calls that reach the operating system or the logger, as recorded in
    the order they are made. *)
Inductive Event : Type :=
| CallStdinPipe
| CallStdoutPipe
| CallStderrPipe
| CallStart
| CallWrite (buf : string)
| CallClose
| CallKill
| CallWait
| Log (line : string).

(** The world outside the [ManagedShell] value: the calls made so far and
    what the child's two output pipes will deliver. *)
Record World : Type := {
  trace : list Event;
  stdout_pipe : io.Pipe;
  stderr_pipe : io.Pipe
}.

Definition emit (e : Event) (w : World) : World :=
  {| trace := (trace w ++ [e])%list;
     stdout_pipe := stdout_pipe w;
     stderr_pipe := stderr_pipe w |}.

Definition with_stdout_pipe (p : io.Pipe) (w : World) : World :=
  {| trace := trace w; stdout_pipe := p; stderr_pipe := stderr_pipe w |}.

Definition with_stderr_pipe (p : io.Pipe) (w : World) : World :=
  {| trace := trace w; stdout_pipe := stdout_pipe w; stderr_pipe := p |}.

Definition set_stdin (h : option Handle) (ms : ManagedShell) : ManagedShell :=
  {| cmd := cmd ms; stdin := h; stdout := stdout ms; stderr := stderr ms |}.

Definition set_stdout (h : option Handle) (ms : ManagedShell) : ManagedShell :=
  {| cmd := cmd ms; stdin := stdin ms; stdout := h; stderr := stderr ms |}.

Definition set_stderr (h : option Handle) (ms : ManagedShell) : ManagedShell :=
  {| cmd := cmd ms; stdin := stdin ms; stdout := stdout ms; stderr := h |}.

Definition set_Process (pid : nat) (ms : ManagedShell) : ManagedShell :=
  {| cmd := match cmd ms with
            | Some c => Some {| Path := Path c; Process := Some pid |}
            | None => None
            end;
     stdin := stdin ms; stdout := stdout ms; stderr := stderr ms |}.

(** What the operating system answers to the calls of one [Start]. *)
Record StartOS : Type := {
  StdinPipe : Result Handle;
  StdoutPipe : Result Handle;
  StderrPipe : Result Handle;
  cmdStart : Result nat
}.

(** What it answers to the [Write] of one [Execute]. *)
Record ExecuteOS : Type := {
  stdinWrite : option error
}.

(** What it answers to the calls of one [Stop]; [None] is a nil error. *)
Record StopOS : Type := {
  stdinClose : option error;
  processKill : option error;
  cmdWait : option error
}.

(** [NewManagedShell]. [exec.Command] only records the path here. *)
Definition NewManagedShell (shellPath : string) : Result ManagedShell :=
  if (shellPath =? EmptyString)%string then
    Failed (errorString "shellPath cannot be empty")
  else
    Ok {| cmd := Some {| Path := shellPath; Process := None |};
          stdin := None; stdout := None; stderr := None |}.

(** [ms.cmd == nil || ms.cmd.Process == nil], negated. *)
Definition has_process (ms : ManagedShell) : bool :=
  match cmd ms with
  | Some c =>
      match Process c with
      | Some _ => true
      | None => false
      end
  | None => false
  end.

(** [Start].  Each of the three assignments [ms.stdin, err = ...] stores
    the handle, nil when the call failed, before [err] is looked at. *)
Definition Start (os : StartOS) (ms : ManagedShell) (w : World)
  : Outcome (ManagedShell * World * option error) :=
  match cmd ms with
  | None => Panics
  | Some _ =>
      let w := emit CallStdinPipe w in
      match StdinPipe os with
      | Failed err =>
          Returns (set_stdin None ms, w,
                   Some (wrapError "failed to get stdin pipe" err))
      | Ok hin =>
          let ms := set_stdin (Some hin) ms in
          let w := emit CallStdoutPipe w in
          match StdoutPipe os with
          | Failed err =>
              Returns (set_stdout None ms, w,
                       Some (wrapError "failed to get stdout pipe" err))
          | Ok hout =>
              let ms := set_stdout (Some hout) ms in
              let w := emit CallStderrPipe w in
              match StderrPipe os with
              | Failed err =>
                  Returns (set_stderr None ms, w,
                           Some (wrapError "failed to get stderr pipe" err))
              | Ok herr =>
                  let ms := set_stderr (Some herr) ms in
                  let w := emit CallStart w in
                  match cmdStart os with
                  | Failed err =>
                      Returns (ms, w,
                               Some (wrapError "failed to start shell process" err))
                  | Ok pid =>
                      Returns (set_Process pid ms,
                               emit (Log "Shell process started.") w, None)
                  end
              end
          end
      end
  end.

Definition delimiter : string := "END_OF_COMMAND_OUTPUT_DELIMITER".

(** The command, a newline, the line that echoes the delimiter in double
    quotes, and a newline. *)
Definition fullCommand (command : string) : string :=
  command ++ newline ++ "echo " ++ dquote ++ delimiter ++ dquote ++ newline.

(** The goroutine that reads stdout: [buf] is [stdoutBuf]; the result is
    the buffer when the goroutine closes [stdoutChan], the log lines it
    printed and the rest of the pipe.  The bytes of a [Read] that also
    reports an error are not stored. *)
Fixpoint read_stdout (p : io.Pipe) (buf : string)
  : Outcome (string * list Event * io.Pipe) :=
  match p with
  | [] => Blocks
  | (_, Some err) :: rest =>
      Returns (buf,
               if is_EOF err then []
               else [Log ("Error reading stdout: " ++ Error err)],
               rest)
  | (data, None) :: rest =>
      let buf := buf ++ data in
      if strings.Contains buf delimiter then Returns (buf, [], rest)
      else read_stdout rest buf
  end.

Definition emit_all (es : list Event) (w : World) : World :=
  fold_left (fun w e => emit e w) es w.

(** [Execute].  The caller waits on [stdoutChan] and does nothing else
    until the goroutine closes it, so the two run one after the other. *)
Definition Execute (os : ExecuteOS) (command : string)
           (ms : ManagedShell) (w : World)
  : Outcome (string * string * option error * World) :=
  if negb (has_process ms) then
    Returns (EmptyString, EmptyString, Some (errorString "shell process not started"), w)
  else
    match stdin ms with
    | None => Panics
    | Some _ =>
        let w := emit (CallWrite (fullCommand command)) w in
        match stdinWrite os with
        | Some err =>
            Returns (EmptyString, EmptyString, Some (wrapError "failed to write to stdin" err), w)
        | None =>
            match stdout ms with
            | None => Panics
            | Some _ =>
                '(stdoutBuf, logs, rest) <- read_stdout (stdout_pipe w) EmptyString ;;
                let w := emit_all logs (with_stdout_pipe rest w) in
                match stderr ms with
                | None => Panics
                | Some _ =>
                    '(stderrBytes, err, rest) <- io.ReadAll (stderr_pipe w) EmptyString ;;
                    let w := with_stderr_pipe rest w in
                    let w :=
                      match err with
                      | Some e => emit (Log ("Error reading stderr: " ++ Error e)) w
                      | None => w
                      end in
                    let stdoutStr := strings.Remove stdoutBuf (delimiter ++ newline) in
                    let stdoutStr :=
                      strings.Remove stdoutStr
                        ("echo " ++ dquote ++ delimiter ++ dquote ++ newline) in
                    let stdoutStr := strings.TrimSpace stdoutStr in
                    Returns (stdoutStr, stderrBytes, None, w)
                end
            end
        end
    end.

Definition stopped : ManagedShell :=
  {| cmd := None; stdin := None; stdout := None; stderr := None |}.

(** [Stop]. *)
Definition Stop (os : StopOS) (ms : ManagedShell) (w : World)
  : Outcome (ManagedShell * World * option error) :=
  if negb (has_process ms) then
    Returns (ms, emit (Log "Shell process not started or already stopped.") w, None)
  else
    match stdin ms with
    | None => Panics
    | Some _ =>
        let w := emit CallClose w in
        let w :=
          match stdinClose os with
          | Some err => emit (Log ("Failed to close stdin: " ++ Error err)) w
          | None => w
          end in
        let w := emit CallKill w in
        let w :=
          match processKill os with
          | Some err =>
              emit (Log ("Failed to kill process: " ++ Error err
                         ++ ". Attempting to wait...")) w
          | None => w
          end in
        let w := emit CallWait w in
        match cmdWait os with
        | Some err =>
            match as_ExitError err with
            | Some _ =>
                Returns (stopped,
                         emit (Log ("Shell process stopped. Exit status: "
                                    ++ Error err)) w,
                         None)
            | None =>
                Returns (ms, w,
                         Some (wrapError "failed to wait for shell process to exit" err))
            end
        | None =>
            Returns (stopped, emit (Log "Shell process stopped successfully.") w, None)
        end
    end.

(** The state that a successful [Start] establishes. *)
Definition Running (ms : ManagedShell) : Prop :=
  has_process ms = true
  /\ stdin ms <> None /\ stdout ms <> None /\ stderr ms <> None.

(** All three stream handles are set, or none is. *)
Definition all_or_none (ms : ManagedShell) : Prop :=
  (stdin ms <> None /\ stdout ms <> None /\ stderr ms <> None)
  \/ (stdin ms = None /\ stdout ms = None /\ stderr ms = None).

End shell.

(** ** Lifetimes of a [ManagedShell] *)

Module lifetime.
Import shell.

(** One call on a [ManagedShell], with what the operating system answers. *)
Inductive Op : Type :=
| OpStart (os : StartOS)
| OpExecute (os : ExecuteOS) (command : string)
| OpStop (os : StopOS).

Definition step (op : Op) (ms : ManagedShell) (w : World)
  : Outcome (ManagedShell * World * option error) :=
  match op with
  | OpStart os => Start os ms w
  | OpExecute os command =>
      '(_, _, err, w) <- Execute os command ms w ;; Returns (ms, w, err)
  | OpStop os => Stop os ms w
  end.

(** The states that a shell built by [NewManagedShell] passes through.
    With [strict = true] only lifetimes in which every [Start] returned a
    nil error are counted. *)
Inductive reaches (strict : bool) : ManagedShell -> World -> Prop :=
| reaches_new shellPath ms w :
    NewManagedShell shellPath = Ok ms ->
    reaches strict ms w
| reaches_step op ms w ms' w' err :
    reaches strict ms w ->
    step op ms w = Returns (ms', w', err) ->
    (strict = true -> forall os, op = OpStart os -> err = None) ->
    reaches strict ms' w'.

(** The shells on which no [Start] has succeeded, or on which a [Stop]
    has run to its end. *)
Inductive not_running : ManagedShell -> Prop :=
| not_running_new shellPath ms :
    NewManagedShell shellPath = Ok ms ->
    not_running ms
| not_running_Start_failed os ms w ms' w' err :
    not_running ms ->
    Start os ms w = Returns (ms', w', Some err) ->
    not_running ms'
| not_running_Execute os command ms w r :
    not_running ms ->
    Execute os command ms w = Returns r ->
    not_running ms
| not_running_Stop_again os ms w ms' w' err :
    not_running ms ->
    Stop os ms w = Returns (ms', w', err) ->
    not_running ms'
| not_running_Stop_done os ms w ms' w' :
    Stop os ms w = Returns (ms', w', None) ->
    not_running ms'.

(** A run of [Stop] calls with no other call in between: the final
    state and the error of each call, in order. *)
Fixpoint Stops (oss : list StopOS) (ms : ManagedShell) (w : World)
  : Outcome (ManagedShell * World * list (option error)) :=
  match oss with
  | [] => Returns (ms, w, [])
  | os :: oss =>
      '(ms, w, err) <- Stop os ms w ;;
      '(ms, w, errs) <- Stops oss ms w ;;
      Returns (ms, w, err :: errs)
  end.

Definition is_Log (e : Event) : bool :=
  match e with
  | Log _ => true
  | _ => false
  end.

End lifetime.

(** ** What deleting every occurrence means *)

Module occurrences.

(** The bytes of [s] that lie in no occurrence of [old]: [cover] counts
    the bytes ahead that belong to an occurrence already met; an
    occurrence that starts at the current byte covers [length old] bytes. *)
Fixpoint delete_from (old : string) (cover : nat) (s : string) : string :=
  match s with
  | EmptyString => EmptyString
  | String c r =>
      match (if prefix old s then Nat.max cover (String.length old) else cover) with
      | O => String c (delete_from old 0 r)
      | S k => delete_from old k r
      end
  end.

Definition delete_every (old s : string) : string := delete_from old 0 s.

(** The last [k] bytes of [s]. *)
Definition suffix (k : nat) (s : string) : string :=
  substring (String.length s - k) k s.

(** No proper non-empty prefix of [old] is also a suffix of it, so two
    occurrences of [old] never overlap. *)
Definition border_free (old : string) : bool :=
  forallb (fun k => negb (substring 0 k old =? suffix k old)%string)
          (seq 1 (String.length old - 1)).

(** [skip] bytes of an occurrence of [old] are still ahead in [s]. *)
Definition aligned (old : string) (skip : nat) (s : string) : Prop :=
  skip = 0
  \/ exists pre suf,
       old = pre ++ suf /\ pre <> EmptyString
       /\ String.length suf = skip /\ prefix suf s = true.

End occurrences.

(** ** The line scanner *)

Module scanner.

(** Modelled from the spec: the constants [MsgTimeout] and [MsgError] that
    the tests name are declared with [BuffScanner], which is not among the
    sources.  Section 6 gives the two reserved lines. *)
Definition MsgTimeout : string := "timeout".
Definition MsgError : string := "error".

(** The line that the test of the busted reader expects. *)
Definition MsgMalfunction : string :=
  MsgError ++ " : multiple Read calls return no data or error".

(** What a [Read] on the source hands back once it returns. *)
Inductive ReadOutcome : Type :=
| Bytes (bs : string)
| EndOfStream
| Failure (msg : string).

(** One [Read] call: how long it takes to return, and with what. *)
Record ReadCall : Type := {
  latency : nat;
  outcome : ReadOutcome
}.

(** A source: what its i-th [Read] call does. *)
Definition Source : Type := nat -> ReadCall.

Inductive Ending : Type :=
| Completed
| TimedOut
| Malfunctioned
| Errored.

(** A finished scan: the lines received on the channel before it was
    closed, how often the channel and the source were closed, how the
    scan ended, how many [Read] calls were issued and how long the source
    had been silent when the scan ended. *)
Record Scanned : Type := {
  lines : list string;
  channel_closes : nat;
  source_closes : nat;
  ending : Ending;
  reads : nat;
  silence : nat
}.

Definition finish (how : Ending) (out : list string) (n idle : nat) : Scanned :=
  {| lines := out; channel_closes := 1; source_closes := 1;
     ending := how; reads := n; silence := idle |}.

(** Modelled from the spec: the splitting of section 4.1.  The complete
    lines of [line ++ bs], where [line] holds no terminator, and the
    trailing partial line that is retained for the next read. *)
Fixpoint take_lines (line bs : string) : list string * string :=
  match bs with
  | EmptyString => ([], line)
  | String c r =>
      if (c =? "010")%char then
        let '(ls, rest) := take_lines EmptyString r in (line :: ls, rest)
      else take_lines (line ++ String c EmptyString) r
  end.

(** Modelled from the spec: at the end of the stream the partial line is
    delivered when it is not empty. *)
Definition flush (line : string) : list string :=
  match line with
  | EmptyString => []
  | _ => [line]
  end.

(** Modelled from the spec: the read loop of [BuffScanner], which is not
    among the sources (only its tests are).  Section 4.1: a read that
    yields bytes resets the timeout clock, and the complete lines are
    pushed while the trailing partial line is retained; a read of zero
    bytes and no error is tolerated once and fatal the second time in a
    row; when the source has been silent for [timeout] before the read
    returns, the line [timeout] is emitted; at end of stream the partial
    line is flushed when non-empty; any other error ends the scan without
    a line.  Every ending closes the source and the channel.  Section 3:
    the clock is reset only by a read that returns at least one byte.
    Section 8, property 3, has the malfunction detected strictly before
    the timeout elapses, so a read that returns at the very moment the
    timer fires has lost the race. *)
Fixpoint scan_loop (fuel timeout : nat) (source : Source) (i : nat)
         (line : string) (stallCount idle : nat) (out : list string)
  : option Scanned :=
  match fuel with
  | O => None
  | S fuel =>
      let r := source i in
      if (timeout <=? idle + latency r)%nat then
        Some (finish TimedOut (out ++ [MsgTimeout])%list (S i) timeout)
      else
        match outcome r with
        | Bytes EmptyString =>
            if (1 <=? stallCount)%nat then
              Some (finish Malfunctioned (out ++ [MsgMalfunction])%list
                           (S i) (idle + latency r))
            else
              scan_loop fuel timeout source (S i) line
                        (S stallCount) (idle + latency r) out
        | Bytes bs =>
            let '(ls, line) := take_lines line bs in
            scan_loop fuel timeout source (S i) line 0 0 (out ++ ls)%list
        | EndOfStream =>
            Some (finish Completed (out ++ flush line)%list
                         (S i) (idle + latency r))
        | Failure _ =>
            Some (finish Errored out (S i) (idle + latency r))
        end
  end.

(** Modelled from the spec: [BuffScanner(timeout, label, source)], the
    entry point that the tests call; [label] only tags log output.
    [fuel] bounds the number of [Read] calls looked at. *)
Definition BuffScanner (fuel timeout : nat) (label : string) (source : Source)
  : option Scanned :=
  scan_loop fuel timeout source 0 EmptyString 0 0 [].

(** The readers of the tests; durations are in milliseconds. *)
Definition stalledReader : Source :=
  fun _ => {| latency := 5000; outcome := Bytes EmptyString |}.

Definition bustedReader : Source :=
  fun _ => {| latency := 0; outcome := Bytes EmptyString |}.

(** A source that hands out the given chunks, each after the given
    delay, and then reports the end of the stream. *)
Definition chunkReader (chunks : list (nat * string)) (last : nat) : Source :=
  fun i =>
    match nth_error chunks i with
    | Some (d, bs) => {| latency := d; outcome := Bytes bs |}
    | None => {| latency := last; outcome := EndOfStream |}
    end.

(** [simpleReader] over [bytes.NewBufferString(s)]. *)
Definition simpleReader (s : string) : Source :=
  chunkReader (match s with EmptyString => [] | _ => [(0, s)] end) 0.

(** The lines of a byte sequence: the terminated lines, then the
    unterminated rest when there is one. *)
Definition lines_of (content : string) : list string :=
  let '(ls, rest) := take_lines EmptyString content in (ls ++ flush rest)%list.

(** Every line followed by its terminator. *)
Fixpoint unlines (ls : list string) : string :=
  match ls with
  | [] => EmptyString
  | l :: ls => l ++ newline ++ unlines ls
  end.

(** The string holds no line terminator. *)
Fixpoint unterminated (s : string) : bool :=
  match s with
  | EmptyString => true
  | String c r => negb (c =? "010")%char && unterminated r
  end.

(** The bytes that a list of delayed chunks carries. *)
Fixpoint bytes_of (chunks : list (nat * string)) : string :=
  match chunks with
  | [] => EmptyString
  | (_, bs) :: chunks => bs ++ bytes_of chunks
  end.

(** [source] hands out exactly [chunks], one per [Read], and then reports
    the end of the stream after [last]. *)
Definition delivers (source : Source) (chunks : list (nat * string))
           (last : nat) : Prop :=
  (forall i d bs, nth_error chunks i = Some (d, bs) ->
                  source i = {| latency := d; outcome := Bytes bs |})
  /\ source (List.length chunks) = {| latency := last; outcome := EndOfStream |}.

(** The reads of a source that the scanner takes for a healthy one: each
    returns before the timer fires, and no two in a row return no bytes.
    [stallCount] and [idle] are those of the read loop. *)
Fixpoint paced (timeout stallCount idle : nat) (chunks : list (nat * string))
         (last : nat) : bool :=
  match chunks with
  | [] => (idle + last <? timeout)%nat
  | (d, bs) :: chunks =>
      (idle + d <? timeout)%nat
      && match bs with
         | EmptyString =>
             (stallCount =? 0)%nat && paced timeout 1 (idle + d) chunks last
         | _ => paced timeout 0 0 chunks last
         end
  end.

(** For how long the source has been silent when it reports its end. *)
Fixpoint silence_at_end (idle : nat) (chunks : list (nat * string))
         (last : nat) : nat :=
  match chunks with
  | [] => idle + last
  | (d, EmptyString) :: chunks => silence_at_end (idle + d) chunks last
  | (_, _) :: chunks => silence_at_end 0 chunks last
  end.

End scanner.

(** ** Sample shells, worlds and answers of the operating system *)

Import shell.

Definition a_path : string := "/bin/bash".

Definition fresh_shell : ManagedShell :=
  {| cmd := Some {| Path := a_path; Process := None |};
     stdin := None; stdout := None; stderr := None |}.

Definition quiet_world : World :=
  {| trace := []; stdout_pipe := []; stderr_pipe := [] |}.

Definition started_shell : ManagedShell :=
  {| cmd := Some {| Path := a_path; Process := Some 4242 |};
     stdin := Some 3; stdout := Some 4; stderr := Some 5 |}.

Definition os_start_ok : StartOS :=
  {| StdinPipe := Ok 3; StdoutPipe := Ok 4; StderrPipe := Ok 5;
     cmdStart := Ok 4242 |}.

Definition os_killed : StopOS :=
  {| stdinClose := None; processKill := None;
     cmdWait := Some (ExitError "signal: killed") |}.

Definition os_wait_fails : StopOS :=
  {| stdinClose := None; processKill := None;
     cmdWait := Some (errorString "waitid: no child processes") |}.

Definition os_write_ok : ExecuteOS := {| stdinWrite := None |}.

Definition os_wait_again : StopOS :=
  {| stdinClose := Some (errorString "close |1: file already closed");
     processKill := None;
     cmdWait := Some (errorString "waitid: no child processes") |}.

Definition os_stdout_pipe_fails : StartOS :=
  {| StdinPipe := Ok 3;
     StdoutPipe := Failed (errorString "pipe2: too many open files");
     StderrPipe := Ok 5; cmdStart := Ok 4242 |}.

Definition os_launch_fails : StartOS :=
  {| StdinPipe := Ok 3; StdoutPipe := Ok 4; StderrPipe := Ok 5;
     cmdStart := Failed (errorString "fork/exec /nonexistent/shell: no such file or directory") |}.

(** The world after the calls of a successful [Start] in [quiet_world]. *)
Definition started_world : World :=
  {| trace := [CallStdinPipe; CallStdoutPipe; CallStderrPipe; CallStart;
               Log "Shell process started."];
     stdout_pipe := []; stderr_pipe := [] |}.

(** A child that has answered [echo hello]: the line and the delimiter
    line are in the stdout pipe, nothing is in the stderr pipe, and the
    child is alive and holds both pipes open. *)
Definition hello_stdout : io.Pipe :=
  [("hello" ++ newline ++ delimiter ++ newline, None)].

(** The same after the command that echoes [err] to standard error. *)
Definition err_stdout : io.Pipe := [(delimiter ++ newline, None)].
Definition err_stderr : io.Pipe := [("err" ++ newline, None)].

(** The end of a stream: a [Read] of no bytes that reports [io.EOF]. *)
Definition at_EOF : io.ReadResult := (EmptyString, Some EOF).

(** A child whose command printed the delimiter line itself, between two
    lines of its own, before the delimiter line of [Execute] arrives. *)
Definition forged_stdout : io.Pipe :=
  [("a" ++ newline ++ delimiter ++ newline ++ "b" ++ newline, None);
   (delimiter ++ newline, None)].

(** A child whose delimiter line reaches the reader in two pieces: the
    [Read] that completes the literal does not carry its newline yet. *)
Definition split_stdout : io.Pipe :=
  [("hello" ++ newline ++ delimiter, None); (newline, None)].

Definition ShutdownFailure (e : error) : error :=
  wrapError "failed to wait for shell process to exit" e.

(** ** Package [loader]: labels *)

Module loader.

(** [Label] is a Go string. *)
Definition Label : Type := string.

Definition SleepLabel : Label := "sleep".
Definition SkipLabel : Label := "skip".

Definition LabelList : Type := list Label.

(** [LabelList.Contains]: the first element equal to [l] ends the loop. *)
Fixpoint Contains (lst : LabelList) (l : Label) : bool :=
  match lst with
  | [] => false
  | x :: rest => if (x =? l)%string then true else Contains rest l
  end.

(** [Label.IsSpecial]. *)
Definition IsSpecial (l : Label) : bool :=
  (l =? SleepLabel)%string || (l =? SkipLabel)%string.

(** The loop of [Equals] over [other]: the first element of [other] that
    [lst] does not contain ends it with [false]. *)
Fixpoint contains_all (lst other : LabelList) : bool :=
  match other with
  | [] => true
  | x :: rest => if negb (Contains lst x) then false else contains_all lst rest
  end.

(** [LabelList.Equals]. *)
Definition Equals (lst other : LabelList) : bool :=
  if negb (List.length lst =? List.length other)%nat then false
  else contains_all lst other.

(** The assignment [labels[j] = v]; an index out of range panics. *)
Fixpoint store (labels : list string) (j : nat) (v : string)
  : Outcome (list string) :=
  match labels, j with
  | [], _ => Panics
  | _ :: rest, O => Returns (v :: rest)
  | x :: rest, S j => rest <- store rest j v ;; Returns (x :: rest)
  end.

Section BlockNames.

(** The type [CodeBlock] and its method [UniqName] are declared in a file
    that is not among the sources; the blocks of the slice are taken to be
    non-nil. *)
Variable CodeBlock : Type.
Variable UniqName : CodeBlock -> string.

(** The loop [for j, block := range cbs] of [NewBlockNameList], from
    index [j] on. *)
Fixpoint name_blocks (labels : list string) (j : nat) (cbs : list CodeBlock)
  : Outcome (list string) :=
  match cbs with
  | [] => Returns labels
  | block :: rest =>
      labels <- store labels j (UniqName block) ;;
      name_blocks labels (S j) rest
  end.

(** [NewBlockNameList]: [make([]string, len(cbs))] holds empty strings. *)
Definition NewBlockNameList (cbs : list CodeBlock) : Outcome (list string) :=
  name_blocks (repeat EmptyString (List.length cbs)) 0 cbs.

End BlockNames.

End loader.

(** ** Package [server]: running a code block *)

Module server.

(** The [Error()] method, under a name that the field [Error] of
    [ExecResponse] does not hide. *)
Definition message (e : error) : string := Error e.

(** [ExecResponse]; the field [Error] is left out of the JSON object when
    it is empty. *)
Record ExecResponse : Type := {
  Stdout : string;
  Stderr : string;
  Error : string
}.

(** The part of [http.Request] that [handleRunCodeBlock] looks at. *)
Record Request : Type := {
  Method : string;
  Body : io.Pipe
}.

(** The part of [Server] that [handleRunCodeBlock] looks at. *)
Record Server : Type := {
  managedShell : option shell.ManagedShell
}.

(** What the handler does to the response writer, to the request body and
    to the structured logger, in order.  A [Write] with no status set
    before it sends the status 200. *)
Inductive Event : Type :=
| HttpError (msg : string) (code : nat)
| SetHeader (key value : string)
| Write (body : string)
| CloseBody
| SlogInfo (msg : string) (attrs : list (string * string))
| SlogError (msg : string) (attrs : list (string * string)).

Definition is_HttpError (e : Event) : bool :=
  match e with
  | HttpError _ _ => true
  | _ => false
  end.

Section Handler.

(** [json.Marshal] on an [ExecResponse]. *)
Variable json_Marshal : ExecResponse -> Result string.

(** [handleRunCodeBlock].  [os] is what the shell's input answers to the
    write of [Execute], [writeErr] what the response writer answers to the
    final [Write].  The deferred [r.Body.Close()] runs when the handler
    returns, on the paths that come after the [defer] statement. *)
Definition handleRunCodeBlock (os : shell.ExecuteOS) (writeErr : option error)
           (ws : Server) (r : Request) (w : shell.World)
  : Outcome (list Event * shell.World) :=
  if negb (Method r =? "POST")%string then
    Returns ([HttpError "Only POST method is allowed" 405], w)
  else
    match managedShell ws with
    | None =>
        Returns ([SlogError "Managed shell is not initialized." [];
                  HttpError "Internal server error: shell not available" 500], w)
    | Some ms =>
        '(codeBytes, err, _) <- io.ReadAll (Body r) EmptyString ;;
        match err with
        | Some e =>
            Returns ([SlogError "Failed to read request body" [("err", message e)];
                      HttpError "Error reading request body" 400], w)
        | None =>
            let command := codeBytes in
            '(stdout, stderr, execErr, w) <-
              shell.Execute os command ms w ;;
            let response :=
              {| Stdout := stdout; Stderr := stderr;
                 Error := match execErr with
                          | Some e => message e
                          | None => EmptyString
                          end |} in
            let logged :=
              (SlogInfo "Executing command in managed shell" [("command", command)]
               :: match execErr with
                  | Some e =>
                      [SlogError "Error executing command in managed shell"
                         [("err", message e); ("stdout", stdout);
                          ("stderr", stderr)]]
                  | None => []
                  end)%list in
            match json_Marshal response with
            | Failed e =>
                Returns ((logged
                          ++ [SlogError "Failed to marshal JSON response"
                                [("err", message e)];
                              HttpError "Error creating response" 500;
                              CloseBody])%list, w)
            | Ok jsonResponse =>
                Returns ((logged
                          ++ [SetHeader "Content-Type" "application/json";
                              Write jsonResponse]
                          ++ match writeErr with
                             | Some e =>
                                 [SlogError "Failed to write JSON response"
                                    [("err", message e)]]
                             | None => []
                             end
                          ++ [CloseBody])%list, w)
            end
        end
    end.

End Handler.

End server.

(** ** Sample requests *)

(** A stand-in for [json.Marshal] that fails on nothing. *)
Definition plain_Marshal (resp : server.ExecResponse) : Result string :=
  Ok (server.Stdout resp ++ "|" ++ server.Stderr resp ++ "|" ++ server.Error resp).

Definition a_server : server.Server :=
  {| server.managedShell := Some started_shell |}.

Definition a_post (body : string) : server.Request :=
  {| server.Method := "POST"; server.Body := [(body, Some EOF)] |}.


(** * Properties *)

(** ** Strings *)

Lemma append_nil_r (s : string) : s ++ EmptyString = s.
Proof.
  induction s as [|c s IH]; simpl; [reflexivity | now rewrite IH].
Qed.

Lemma append_assoc (a b c : string) : (a ++ b) ++ c = a ++ b ++ c.
Proof.
  induction a as [|x a IH]; simpl; [reflexivity | now rewrite IH].
Qed.

Lemma length_append (a b : string) :
  String.length (a ++ b) = String.length a + String.length b.
Proof.
  induction a as [|x a IH]; simpl; [reflexivity | now rewrite IH].
Qed.

Lemma length_zero (s : string) : String.length s = 0 -> s = EmptyString.
Proof.
  destruct s; simpl; [reflexivity | discriminate].
Qed.

Lemma prefix_cons (c d : ascii) (a s : string) :
  prefix (String c a) (String d s) = true <-> c = d /\ prefix a s = true.
Proof.
  simpl. destruct (ascii_dec c d) as [->|Hne].
  - tauto.
  - split; [discriminate | intros [Heq _]; contradiction].
Qed.

Lemma prefix_app (a b : string) : prefix a (a ++ b) = true.
Proof.
  induction a as [|c a IH]; simpl.
  - now destruct b.
  - destruct (ascii_dec c c); [exact IH | contradiction].
Qed.

Lemma prefix_split (a s : string) :
  prefix a s = true -> exists b, s = a ++ b.
Proof.
  revert s. induction a as [|c a IH]; intros s H.
  - exists s. reflexivity.
  - destruct s as [|d s]; [discriminate|].
    apply prefix_cons in H. destruct H as [-> H].
    destruct (IH _ H) as [b ->]. exists b. reflexivity.
Qed.

(** Two prefixes of one string: the shorter is a prefix of the longer. *)
Lemma prefix_of_prefix (a b s : string) :
  prefix a s = true -> prefix b s = true ->
  String.length b <= String.length a ->
  prefix b a = true.
Proof.
  revert b s. induction a as [|c a IH]; intros b s Ha Hb Hlen.
  - destruct b; [reflexivity | simpl in Hlen; lia].
  - destruct b as [|d b]; [reflexivity|].
    destruct s as [|e s]; [discriminate|].
    apply prefix_cons in Ha. destruct Ha as [-> Ha].
    apply prefix_cons in Hb. destruct Hb as [-> Hb].
    apply prefix_cons. split; [reflexivity|].
    apply (IH b s Ha Hb). simpl in Hlen. lia.
Qed.

Lemma substring_prefix (a b : string) :
  substring 0 (String.length a) (a ++ b) = a.
Proof.
  induction a as [|c a IH]; simpl.
  - now destruct b.
  - now rewrite IH.
Qed.

Lemma substring_suffix (a b : string) :
  substring (String.length a) (String.length b) (a ++ b) = b.
Proof.
  induction a as [|c a IH]; simpl.
  - pose proof (substring_prefix b EmptyString) as H.
    now rewrite append_nil_r in H.
  - exact IH.
Qed.

(** ** Deleting every occurrence *)

Section BorderFree.

(** A pattern that is not empty and cannot overlap itself. *)
Variable old : string.
Hypothesis old_border_free : occurrences.border_free old = true.
Hypothesis old_not_empty : old <> EmptyString.

Lemma border_free_sound (pre suf post : string) :
  old = pre ++ suf -> old = suf ++ post ->
  pre <> EmptyString -> suf <> EmptyString ->
  False.
Proof.
  intros Hps Hsp Hpre Hsuf.
  pose proof old_border_free as Hfree.
  unfold occurrences.border_free in Hfree.
  rewrite forallb_forall in Hfree.
  assert (Hlen : String.length old = String.length pre + String.length suf)
    by (rewrite Hps; apply length_append).
  assert (Hp : 1 <= String.length pre).
  { destruct pre; [contradiction | simpl; lia]. }
  assert (Hs : 1 <= String.length suf).
  { destruct suf; [contradiction | simpl; lia]. }
  specialize (Hfree (String.length suf)).
  rewrite in_seq in Hfree.
  assert (Hin : 1 <= String.length suf < 1 + (String.length old - 1)) by lia.
  specialize (Hfree Hin).
  apply negb_true_iff in Hfree. apply String.eqb_neq in Hfree.
  apply Hfree. unfold occurrences.suffix.
  replace (String.length old - String.length suf) with (String.length pre) by lia.
  rewrite Hsp at 1. rewrite substring_prefix.
  rewrite Hps. now rewrite substring_suffix.
Qed.

Lemma aligned_next (k : nat) (c : ascii) (r : string) :
  occurrences.aligned old (S k) (String c r) -> occurrences.aligned old k r.
Proof.
  intros [H | (pre & suf & Hold & Hpre & Hlen & Hpx)]; [discriminate|].
  destruct suf as [|x suf]; [discriminate|].
  apply prefix_cons in Hpx. destruct Hpx as [-> Hpx].
  right. exists (pre ++ String c EmptyString), suf.
  repeat split.
  - rewrite append_assoc. exact Hold.
  - destruct pre; discriminate.
  - simpl in Hlen. lia.
  - exact Hpx.
Qed.

Lemma aligned_start (c : ascii) (r : string) :
  prefix old (String c r) = true ->
  occurrences.aligned old (String.length old - 1) r.
Proof.
  intros Hpx. pose proof old_not_empty as Hne.
  destruct old as [|x rest]; [contradiction|].
  apply prefix_cons in Hpx. destruct Hpx as [-> Hpx].
  right. exists (String c EmptyString), rest.
  repeat split; [discriminate | simpl; lia | exact Hpx].
Qed.

(** No occurrence starts inside an occurrence. *)
Lemma aligned_no_occurrence (k : nat) (s : string) :
  occurrences.aligned old (S k) s -> prefix old s = false.
Proof.
  intros [H | (pre & suf & Hold & Hpre & Hlen & Hpx)]; [discriminate|].
  destruct (prefix old s) eqn:Hocc; [exfalso | reflexivity].
  assert (Hle : String.length suf <= String.length old).
  { rewrite Hold, length_append. lia. }
  destruct (prefix_split _ _ (prefix_of_prefix _ _ _ Hocc Hpx Hle)) as [post Hpost].
  apply (border_free_sound pre suf post Hold Hpost Hpre).
  destruct suf; discriminate.
Qed.

Lemma remove_from_delete_from (s : string) :
  forall skip, occurrences.aligned old skip s ->
    strings.remove_from old skip s = occurrences.delete_from old skip s.
Proof.
  induction s as [|c r IH]; intros skip Hal.
  - reflexivity.
  - destruct skip as [|k].
    + cbn [strings.remove_from occurrences.delete_from].
      destruct (prefix old (String c r)) eqn:Hocc.
      * rewrite Nat.max_0_l.
        destruct (String.length old) as [|n] eqn:Hlen.
        { apply length_zero in Hlen. now apply old_not_empty in Hlen. }
        replace (S n - 1) with n by lia.
        apply IH. replace n with (String.length old - 1) by lia.
        now apply aligned_start with (c := c).
      * f_equal. apply IH. now left.
    + cbn [strings.remove_from occurrences.delete_from].
      rewrite (aligned_no_occurrence k _ Hal).
      apply IH. now apply aligned_next with (c := c).
Qed.

(** For such a pattern, [strings.Replace] with an empty replacement
    deletes every occurrence. *)
Lemma Remove_deletes_every (s : string) :
  strings.Remove s old = occurrences.delete_every old s.
Proof.
  unfold strings.Remove, occurrences.delete_every.
  rewrite <- (remove_from_delete_from s 0) by now left.
  pose proof old_not_empty as Hne.
  destruct old; [contradiction | reflexivity].
Qed.

End BorderFree.

(** ** The managed shell: what each call does to the state *)

Lemma has_process_stopped : has_process stopped = false.
Proof. reflexivity. Qed.

Lemma NewManagedShell_fresh (shellPath : string) (ms : ManagedShell) :
  NewManagedShell shellPath = Ok ms ->
  has_process ms = false
  /\ stdin ms = None /\ stdout ms = None /\ stderr ms = None.
Proof.
  unfold NewManagedShell.
  destruct (shellPath =? EmptyString)%string; [discriminate|].
  intros H. injection H as <-. repeat split.
Qed.

Lemma has_process_set_Process (pid : nat) (ms : ManagedShell) :
  cmd ms <> None -> has_process (set_Process pid ms) = true.
Proof.
  unfold has_process, set_Process. simpl.
  destruct (cmd ms); [reflexivity | contradiction].
Qed.

(** A [Start] that returns a nil error leaves a running shell. *)
Lemma Start_ok_Running (os : StartOS) (ms ms' : ManagedShell) (w w' : World) :
  Start os ms w = Returns (ms', w', None) -> Running ms'.
Proof.
  unfold Start.
  destruct (cmd ms) as [c|] eqn:Hcmd; [|discriminate].
  destruct (StdinPipe os); [|discriminate].
  destruct (StdoutPipe os); [|discriminate].
  destruct (StderrPipe os); [|discriminate].
  destruct (cmdStart os) as [pid|]; [|discriminate].
  intros H. injection H as <- _.
  split; [|repeat split; discriminate].
  apply has_process_set_Process. simpl. rewrite Hcmd. discriminate.
Qed.

(** A [Start] that returns an error does not create a process handle. *)
Lemma Start_failed_no_process (os : StartOS) (ms ms' : ManagedShell)
      (w w' : World) (err : error) :
  has_process ms = false ->
  Start os ms w = Returns (ms', w', Some err) ->
  has_process ms' = false.
Proof.
  unfold Start. intros Hno.
  destruct (cmd ms) as [c|] eqn:Hcmd; [|discriminate].
  destruct (StdinPipe os);
    [|intros H; injection H as <- _ _; exact Hno].
  destruct (StdoutPipe os);
    [|intros H; injection H as <- _ _; exact Hno].
  destruct (StderrPipe os);
    [|intros H; injection H as <- _ _; exact Hno].
  destruct (cmdStart os) as [pid|]; [discriminate|].
  intros H; injection H as <- _ _; exact Hno.
Qed.

(** [Stop] on a shell without a process handle only logs. *)
Lemma Stop_no_process (os : StopOS) (ms : ManagedShell) (w : World) :
  has_process ms = false ->
  Stop os ms w
  = Returns (ms, emit (Log "Shell process not started or already stopped.") w, None).
Proof.
  intros H. unfold Stop. rewrite H. reflexivity.
Qed.

(** What a returning [Stop] leaves behind: with a nil error, a shell
    without a process handle; with an error, the shell as it was. *)
Lemma Stop_returns (os : StopOS) (ms ms' : ManagedShell) (w w' : World)
      (err : option error) :
  Stop os ms w = Returns (ms', w', err) ->
  (err = None /\ has_process ms' = false /\ (ms' = ms \/ ms' = stopped))
  \/ (exists e, err = Some (wrapError "failed to wait for shell process to exit" e)
                /\ cmdWait os = Some e /\ as_ExitError e = None /\ ms' = ms).
Proof.
  unfold Stop.
  destruct (has_process ms) eqn:Hp; simpl.
  - destruct (stdin ms); [|discriminate].
    destruct (cmdWait os) as [e|] eqn:Hw.
    + destruct (as_ExitError e) eqn:Hx.
      * intros H. injection H as <- _ <-. left. repeat split. now right.
      * intros H. injection H as <- _ <-. right. exists e. repeat split.
        exact Hx.
    + intros H. injection H as <- _ <-. left. repeat split. now right.
  - intros H. injection H as <- _ <-. left. repeat split; [exact Hp | now left].
Qed.

Lemma Execute_no_process (os : ExecuteOS) (command : string)
      (ms : ManagedShell) (w : World) :
  has_process ms = false ->
  Execute os command ms w
  = Returns (EmptyString, EmptyString,
             Some (errorString "shell process not started"), w).
Proof.
  intros H. unfold Execute. rewrite H. reflexivity.
Qed.

Lemma not_running_no_process (ms : ManagedShell) :
  lifetime.not_running ms -> has_process ms = false.
Proof.
  induction 1 as [p ms Hnew | os ms w ms' w' err _ IH HS
                  | os c ms w r _ IH _ | os ms w ms' w' err _ IH HS
                  | os ms w ms' w' HS].
  - now apply NewManagedShell_fresh in Hnew.
  - exact (Start_failed_no_process _ _ _ _ _ _ IH HS).
  - exact IH.
  - rewrite (Stop_no_process _ _ _ IH) in HS. injection HS as <- _ _. exact IH.
  - apply Stop_returns in HS.
    destruct HS as [(_ & H & _) | (e & He & _)]; [exact H | discriminate].
Qed.

(** *** Claim C7 *)

(** C7. On a shell on which no [Start] has succeeded, or on which a [Stop]
    has run to its end, every [Execute] returns at once with empty stdout
    and stderr and the error [shell process not started]; the world is
    left as it was: nothing is written to the child's input and nothing is
    read from its output. *)
Theorem Execute_not_started (ms : ManagedShell) (os : ExecuteOS)
        (command : string) (w : World) :
  lifetime.not_running ms ->
  exists err,
    Execute os command ms w = Returns (EmptyString, EmptyString, Some err, w)
    /\ Error err = "shell process not started"
    /\ strings.Contains (Error err) "shell process not started" = true.
Proof.
  intros Hnr. exists (errorString "shell process not started").
  split; [|split; reflexivity].
  apply Execute_no_process. now apply not_running_no_process.
Qed.

Lemma Execute_not_started_witness :
  exists err,
    Execute os_write_ok "echo too late" stopped quiet_world
    = Returns (EmptyString, EmptyString, Some err, quiet_world)
    /\ Error err = "shell process not started"
    /\ strings.Contains (Error err) "shell process not started" = true.
Proof.
  apply (Execute_not_started stopped os_write_ok "echo too late" quiet_world).
  apply (lifetime.not_running_Stop_done os_killed started_shell quiet_world
           stopped (emit (Log "Shell process stopped. Exit status: signal: killed")
                      (emit CallWait (emit CallKill (emit CallClose quiet_world))))).
  reflexivity.
Defined.

(** *** Claim C8 *)

Lemma Stops_no_process (oss : list StopOS) (ms : ManagedShell) (w : World) :
  has_process ms = false ->
  exists logs,
    lifetime.Stops oss ms w
    = Returns (ms, emit_all logs w, repeat None (List.length oss))
    /\ forallb lifetime.is_Log logs = true.
Proof.
  intros Hno. revert w. induction oss as [|os oss IH]; intros w.
  - exists []. split; reflexivity.
  - cbn [lifetime.Stops]. rewrite (Stop_no_process _ _ _ Hno). cbn [bind].
    destruct (IH (emit (Log "Shell process not started or already stopped.") w))
      as (logs & -> & Hlogs).
    exists (Log "Shell process not started or already stopped." :: logs).
    split; [reflexivity | exact Hlogs].
Qed.

(** C8, as the code has it.  In a run of [Stop] calls with no [Start] in
    between, once a call has returned success every later call returns
    success and leaves the [ManagedShell] as it is, doing nothing but
    logging; [Stop] on a shell that was never started is such a success. *)
Theorem Stop_idempotent_after_success
        (os : StopOS) (ms ms1 : ManagedShell) (w w1 : World) (oss : list StopOS) :
  Stop os ms w = Returns (ms1, w1, None) ->
  (exists logs,
      lifetime.Stops oss ms1 w1
      = Returns (ms1, emit_all logs w1, repeat None (List.length oss))
      /\ forallb lifetime.is_Log logs = true)
  /\ (forall shellPath ms0 os0 w0,
         NewManagedShell shellPath = Ok ms0 ->
         Stop os0 ms0 w0
         = Returns (ms0,
                    emit (Log "Shell process not started or already stopped.") w0,
                    None)).
Proof.
  intros HS. split.
  - apply Stops_no_process. apply Stop_returns in HS.
    destruct HS as [(_ & H & _) | (e & He & _)]; [exact H | discriminate].
  - intros p ms0 os0 w0 Hnew. apply Stop_no_process.
    now apply NewManagedShell_fresh in Hnew.
Qed.

Lemma Stop_idempotent_after_success_witness :
  (exists logs,
      lifetime.Stops [os_killed; os_wait_again] stopped
        (emit (Log "Shell process stopped. Exit status: signal: killed")
           (emit CallWait (emit CallKill (emit CallClose started_world))))
      = Returns (stopped,
                 emit_all logs
                   (emit (Log "Shell process stopped. Exit status: signal: killed")
                      (emit CallWait (emit CallKill (emit CallClose started_world)))),
                 repeat None 2)
      /\ forallb lifetime.is_Log logs = true)
  /\ (forall shellPath ms0 os0 w0,
         NewManagedShell shellPath = Ok ms0 ->
         Stop os0 ms0 w0
         = Returns (ms0,
                    emit (Log "Shell process not started or already stopped.") w0,
                    None)).
Proof.
  apply (Stop_idempotent_after_success os_killed started_shell stopped
           started_world _ [os_killed; os_wait_again]).
  reflexivity.
Defined.

(** C8 as stated fails: on a started shell, a [Stop] whose wait fails
    returns an error and keeps the handles, and the [Stop] after it goes
    through the teardown again and returns an error again. *)
Lemma Stop_after_failed_Stop_fails :
  NewManagedShell a_path = Ok fresh_shell
  /\ Start os_start_ok fresh_shell quiet_world
     = Returns (started_shell, started_world, None)
  /\ lifetime.Stops [os_wait_fails; os_wait_again] started_shell started_world
     = Returns (started_shell,
                emit CallWait
                  (emit CallKill
                     (emit (Log "Failed to close stdin: close |1: file already closed")
                        (emit CallClose
                           (emit CallWait
                              (emit CallKill (emit CallClose started_world)))))),
                [Some (ShutdownFailure (errorString "waitid: no child processes"));
                 Some (ShutdownFailure (errorString "waitid: no child processes"))]).
Proof.
  repeat split.
Qed.

(** *** Claim C9 *)

(** C9. On a running shell, [Stop] returns no error when the wait reports
    an exit status (the child was killed) or nothing at all, and then the
    process handle and the three stream handles are absent; it returns a
    wrapped error exactly when the wait fails with an error that is not an
    exit status, whatever closing the input and killing the process
    answered. *)
Theorem Stop_running (os : StopOS) (ms : ManagedShell) (w : World) :
  Running ms ->
  (forall state, cmdWait os = Some (ExitError state) ->
     exists w', Stop os ms w = Returns (stopped, w', None))
  /\ (cmdWait os = None ->
      exists w', Stop os ms w = Returns (stopped, w', None))
  /\ (forall e, cmdWait os = Some e -> as_ExitError e = None ->
      exists w', Stop os ms w = Returns (ms, w', Some (ShutdownFailure e)))
  /\ (exists ms' w' err, Stop os ms w = Returns (ms', w', err)
      /\ (err = None ->
          cmd ms' = None /\ stdin ms' = None
          /\ stdout ms' = None /\ stderr ms' = None)
      /\ (forall e', err = Some e' ->
          exists e, e' = ShutdownFailure e
                    /\ cmdWait os = Some e /\ as_ExitError e = None)).
Proof.
  intros (Hp & Hin & _ & _).
  unfold Stop. rewrite Hp. cbn [negb].
  destruct (stdin ms) as [h|]; [|contradiction].
  repeat split.
  - intros state ->. cbn. eexists. reflexivity.
  - intros ->. eexists. reflexivity.
  - intros e -> ->. eexists. reflexivity.
  - destruct (cmdWait os) as [e|] eqn:Hw.
    + destruct (as_ExitError e) eqn:Hx.
      * do 3 eexists. split; [reflexivity|]. split.
        -- intros _. repeat split.
        -- intros e' H. discriminate.
      * do 3 eexists. split; [reflexivity|]. split.
        -- intros H. discriminate.
        -- intros e' H. injection H as <-. exists e. repeat split. exact Hx.
    + do 3 eexists. split; [reflexivity|]. split.
      * intros _. repeat split.
      * intros e' H. discriminate.
Qed.

Lemma started_shell_Running : Running started_shell.
Proof.
  repeat split; discriminate.
Defined.

Lemma Stop_running_witness :
  exists w',
    Stop os_killed started_shell started_world = Returns (stopped, w', None).
Proof.
  destruct (Stop_running os_killed started_shell started_world
              started_shell_Running) as (Hkilled & _).
  apply (Hkilled "signal: killed"). reflexivity.
Defined.

(** *** Claim C3 *)

(** A [Start] that returns an error undoes nothing: each handle is what
    its pipe call answered, nil when that call failed, and the handles of
    the calls that were not reached are as before. *)
Lemma Start_failed_residue (os : StartOS) (ms ms' : ManagedShell)
      (w w' : World) (err : error) :
  Start os ms w = Returns (ms', w', Some err) ->
  cmd ms' = cmd ms
  /\ match StdinPipe os with
     | Failed _ =>
         stdin ms' = None /\ stdout ms' = stdout ms /\ stderr ms' = stderr ms
     | Ok hin =>
         stdin ms' = Some hin
         /\ match StdoutPipe os with
            | Failed _ => stdout ms' = None /\ stderr ms' = stderr ms
            | Ok hout =>
                stdout ms' = Some hout
                /\ match StderrPipe os with
                   | Failed _ => stderr ms' = None
                   | Ok herr => stderr ms' = Some herr
                   end
            end
     end.
Proof.
  unfold Start.
  destruct (cmd ms) as [c|] eqn:Hcmd; [|discriminate].
  destruct (StdinPipe os);
    [|intros H; injection H as <- _ _; cbn; rewrite Hcmd; repeat split].
  destruct (StdoutPipe os);
    [|intros H; injection H as <- _ _; cbn; rewrite Hcmd; repeat split].
  destruct (StderrPipe os);
    [|intros H; injection H as <- _ _; cbn; rewrite Hcmd; repeat split].
  destruct (cmdStart os) as [pid|]; [discriminate|].
  intros H; injection H as <- _ _; cbn; rewrite Hcmd; repeat split.
Qed.

(** C3, as the code has it.  Along every lifetime in which no [Start] has
    returned an error, the three stream handles are all set, with the
    process handle, or all absent, without it.  A [Start] that returns an
    error keeps the handles it had acquired before the step that failed. *)
Theorem handles_all_or_none_without_failed_Start (ms : ManagedShell) (w : World) :
  lifetime.reaches true ms w ->
  all_or_none ms
  /\ (Running ms
      \/ (has_process ms = false
          /\ stdin ms = None /\ stdout ms = None /\ stderr ms = None))
  /\ (forall os w1 ms' w' err,
         Start os ms w1 = Returns (ms', w', Some err) ->
         cmd ms' = cmd ms
         /\ match StdinPipe os with
            | Failed _ =>
                stdin ms' = None
                /\ stdout ms' = stdout ms /\ stderr ms' = stderr ms
            | Ok hin =>
                stdin ms' = Some hin
                /\ match StdoutPipe os with
                   | Failed _ => stdout ms' = None /\ stderr ms' = stderr ms
                   | Ok hout =>
                       stdout ms' = Some hout
                       /\ match StderrPipe os with
                          | Failed _ => stderr ms' = None
                          | Ok herr => stderr ms' = Some herr
                          end
                   end
            end).
Proof.
  intros Hr.
  assert (H : Running ms
              \/ (has_process ms = false
                  /\ stdin ms = None /\ stdout ms = None /\ stderr ms = None)).
  { induction Hr as [p ms w Hnew | op ms w ms' w' err _ IH Hstep Hstrict].
    - right. now apply NewManagedShell_fresh in Hnew.
    - destruct op as [os | os command | os]; cbn [lifetime.step] in Hstep.
      + rewrite (Hstrict eq_refl os eq_refl) in Hstep.
        left. exact (Start_ok_Running _ _ _ _ _ Hstep).
      + destruct (Execute os command ms w) as [[[[so se] e] w1]| |];
          cbn [bind] in Hstep; try discriminate.
        injection Hstep as <- _ _. exact IH.
      + apply Stop_returns in Hstep.
        destruct Hstep as [(_ & _ & [-> | ->]) | (e & _ & _ & _ & ->)].
        * exact IH.
        * right. repeat split.
        * exact IH. }
  split; [|split; [exact H|]].
  - destruct H as [(_ & H) | (_ & H)]; [now left | now right].
  - intros os w1 ms' w' err. apply Start_failed_residue.
Qed.

Lemma started_shell_reached : lifetime.reaches true started_shell started_world.
Proof.
  apply (lifetime.reaches_step true (lifetime.OpStart os_start_ok)
           fresh_shell quiet_world started_shell started_world None).
  - apply (lifetime.reaches_new true a_path). reflexivity.
  - reflexivity.
  - intros _ os _. reflexivity.
Defined.

Lemma handles_all_or_none_witness :
  all_or_none started_shell
  /\ (Running started_shell
      \/ (has_process started_shell = false
          /\ stdin started_shell = None /\ stdout started_shell = None
          /\ stderr started_shell = None)).
Proof.
  destruct (handles_all_or_none_without_failed_Start started_shell started_world
              started_shell_reached) as (Hall & Hinv & _).
  split; [exact Hall | exact Hinv].
Defined.

(** C3 as stated fails: [Start] does not undo what it has done when a
    later step fails.  A failure at the stdout pipe leaves the stdin handle
    set and the other two absent; a failure at process launch leaves all
    three handles set on a shell that has no process. *)
Lemma Start_failure_keeps_handles :
  (exists ms' w' err,
      Start os_stdout_pipe_fails fresh_shell quiet_world
      = Returns (ms', w', Some err)
      /\ stdin ms' = Some 3 /\ stdout ms' = None /\ stderr ms' = None
      /\ ~ all_or_none ms'
      /\ lifetime.reaches false ms' w')
  /\ (exists ms' w' err,
         Start os_launch_fails fresh_shell quiet_world
         = Returns (ms', w', Some err)
         /\ stdin ms' = Some 3 /\ stdout ms' = Some 4 /\ stderr ms' = Some 5
         /\ has_process ms' = false
         /\ lifetime.reaches false ms' w').
Proof.
  split.
  - do 3 eexists. split; [reflexivity|]. repeat split.
    + intros [(_ & H & _) | (H & _)]; [now apply H | discriminate H].
    + eapply (lifetime.reaches_step false (lifetime.OpStart os_stdout_pipe_fails)
                fresh_shell quiet_world).
      * apply (lifetime.reaches_new false a_path). reflexivity.
      * reflexivity.
      * intros H. discriminate H.
  - do 3 eexists. split; [reflexivity|]. repeat split.
    eapply (lifetime.reaches_step false (lifetime.OpStart os_launch_fails)
              fresh_shell quiet_world).
    + apply (lifetime.reaches_new false a_path). reflexivity.
    + reflexivity.
    + intros H. discriminate H.
Qed.

(** ** The managed shell: [Execute] on a running shell *)

Lemma trace_emit_all (logs : list Event) (w : World) :
  trace (emit_all logs w) = (trace w ++ logs)%list.
Proof.
  unfold emit_all. revert w. induction logs as [|e logs IH]; intros w; simpl.
  - now rewrite app_nil_r.
  - rewrite IH. simpl. now rewrite <- app_assoc.
Qed.

Lemma stdout_pipe_emit_all (logs : list Event) (w : World) :
  stdout_pipe (emit_all logs w) = stdout_pipe w.
Proof.
  unfold emit_all. revert w. induction logs as [|e logs IH]; intros w; simpl.
  - reflexivity.
  - now rewrite IH.
Qed.

Lemma stderr_pipe_emit_all (logs : list Event) (w : World) :
  stderr_pipe (emit_all logs w) = stderr_pipe w.
Proof.
  unfold emit_all. revert w. induction logs as [|e logs IH]; intros w; simpl.
  - reflexivity.
  - now rewrite IH.
Qed.

(** [io.ReadAll] does not return while no [Read] reports an error. *)
Lemma ReadAll_open_pipe (p : io.Pipe) (b : string) :
  Forall io.no_error p -> io.ReadAll p b = Blocks.
Proof.
  intros H. revert b. induction H as [|[data e] p He _ IH]; intros b.
  - reflexivity.
  - unfold io.no_error in He. simpl in He. subst e. simpl. apply IH.
Qed.

(** [Execute] on a running shell whose input accepts the write. *)
Lemma Execute_running (os : ExecuteOS) (command : string)
      (ms : ManagedShell) (w : World) :
  Running ms -> stdinWrite os = None ->
  Execute os command ms w
  = ('(stdoutBuf, logs, rest) <-
       read_stdout (stdout_pipe w) EmptyString ;;
     let w1 :=
       emit_all logs
         (with_stdout_pipe rest (emit (CallWrite (fullCommand command)) w)) in
     '(stderrBytes, err, rest) <- io.ReadAll (stderr_pipe w1) EmptyString ;;
     let w2 := with_stderr_pipe rest w1 in
     let w3 :=
       match err with
       | Some e => emit (Log ("Error reading stderr: " ++ Error e)) w2
       | None => w2
       end in
     Returns (strings.TrimSpace
                (strings.Remove
                   (strings.Remove stdoutBuf (delimiter ++ newline))
                   ("echo " ++ dquote ++ delimiter ++ dquote ++ newline)),
              stderrBytes, None, w3)).
Proof.
  intros (Hp & Hin & Hout & Herr) Hw.
  unfold Execute. rewrite Hp, Hw. cbn [negb].
  destruct (stdin ms); [|contradiction].
  destruct (stdout ms); [|contradiction].
  destruct (stderr ms); [|contradiction].
  reflexivity.
Qed.

(** What the goroutine has done when it closes [stdoutChan]. *)
Lemma read_stdout_returns (p : io.Pipe) (b acc : string)
      (logs : list Event) (rest : io.Pipe) :
  read_stdout p b = Returns (acc, logs, rest) ->
  exists taken,
    p = (taken ++ rest)%list
    /\ acc = b ++ io.stored taken
    /\ (forall k, 1 <= k < List.length taken ->
          strings.Contains (b ++ io.stored (firstn k taken)) delimiter = false)
    /\ forallb lifetime.is_Log logs = true
    /\ ((Forall io.no_error taken /\ strings.Contains acc delimiter = true)
        \/ (exists pre data err,
               taken = (pre ++ [(data, Some err)])%list
               /\ Forall io.no_error pre)).
Proof.
  revert b. induction p as [|[data e] p IH]; intros b H.
  - discriminate.
  - destruct e as [e|].
    + cbn [read_stdout] in H. injection H as <- <- <-.
      exists [(data, Some e)]. repeat split.
      * cbn. now rewrite append_nil_r.
      * cbn. intros k Hk. lia.
      * now destruct (is_EOF e).
      * right. exists [], data, e. split; [reflexivity | constructor].
    + cbn [read_stdout] in H.
      destruct (strings.Contains (b ++ data) delimiter) eqn:Hc.
      * injection H as <- <- <-.
        exists [(data, None)]. repeat split.
        -- cbn [io.stored]. now rewrite append_nil_r.
        -- cbn. intros k Hk. lia.
        -- left. split; [|exact Hc].
           constructor; [reflexivity | constructor].
      * destruct (IH _ H) as (taken & Hp & Hacc & Hfirst & Hlogs & Hend).
        exists ((data, None) :: taken). repeat split.
        -- cbn. now rewrite Hp.
        -- cbn [io.stored]. now rewrite <- append_assoc.
        -- intros k Hk. destruct k as [|k]; [lia|].
           cbn [firstn io.stored]. rewrite <- append_assoc.
           destruct k as [|k].
           ++ cbn [firstn io.stored]. now rewrite append_nil_r.
           ++ apply Hfirst. cbn [List.length] in Hk. lia.
        -- exact Hlogs.
        -- destruct Hend as [(Hall & Hc') | (pre & d & err & -> & Hall)].
           ++ left. split; [|exact Hc'].
              constructor; [reflexivity | exact Hall].
           ++ right. exists ((data, None) :: pre), d, err.
              split; [reflexivity|].
              constructor; [reflexivity | exact Hall].
Qed.

(** *** Claims C1 and C2 *)

(** C1, at the failing input.  On every session on which [Start] has
    succeeded, when the child has answered [echo hello] on its standard
    output and holds its standard error open without writing to it,
    [Execute] reads the answer and then never returns; the same happens
    after the command that echoes [err] to standard error, although the
    bytes are in the stderr pipe. *)
Theorem Execute_echo_blocks_on_live_session
        (shellPath : string) (ms0 ms : ManagedShell) (sos : StartOS)
        (w0 w : World) (os : ExecuteOS) :
  NewManagedShell shellPath = Ok ms0 ->
  Start sos ms0 w0 = Returns (ms, w, None) ->
  stdinWrite os = None ->
  (stdout_pipe w = hello_stdout -> stderr_pipe w = [] ->
   Execute os "echo hello" ms w = Blocks)
  /\ (stdout_pipe w = err_stdout -> stderr_pipe w = err_stderr ->
      Execute os ">&2 echo err" ms w = Blocks).
Proof.
  intros _ HS Hw. apply Start_ok_Running in HS.
  split; intros Hout Herr.
  - rewrite (Execute_running _ _ _ _ HS Hw), Hout. cbn.
    rewrite Herr. reflexivity.
  - rewrite (Execute_running _ _ _ _ HS Hw), Hout. cbn.
    rewrite Herr. reflexivity.
Qed.

Lemma Execute_echo_blocks_witness :
  Execute os_write_ok "echo hello" started_shell
    {| trace := trace started_world;
       stdout_pipe := hello_stdout; stderr_pipe := [] |}
  = Blocks.
Proof.
  refine (proj1 (Execute_echo_blocks_on_live_session a_path fresh_shell
                   started_shell os_start_ok
                   {| trace := []; stdout_pipe := hello_stdout; stderr_pipe := [] |}
                   _ os_write_ok _ _ _) _ _); reflexivity.
Defined.

(** C2, at the failing inputs.  On a running shell, once the delimiter
    has been seen on standard output, [Execute] does not return as long as
    no [Read] on standard error reports the end of the stream or an error:
    the child is alive and holds its end of the pipe open. *)
Theorem Execute_blocks_while_stderr_open
        (os : ExecuteOS) (command : string) (ms : ManagedShell) (w : World)
        (buf : string) (logs : list Event) (rest : io.Pipe) :
  Running ms ->
  stdinWrite os = None ->
  read_stdout (stdout_pipe w) EmptyString = Returns (buf, logs, rest) ->
  strings.Contains buf delimiter = true ->
  Forall io.no_error (stderr_pipe w) ->
  Execute os command ms w = Blocks.
Proof.
  intros HR Hw Hread _ Hopen.
  rewrite (Execute_running _ _ _ _ HR Hw), Hread. cbn [bind].
  rewrite stderr_pipe_emit_all. cbn [with_stdout_pipe emit stderr_pipe].
  now rewrite (ReadAll_open_pipe _ _ Hopen).
Qed.

Lemma Execute_blocks_while_stderr_open_witness :
  Execute os_write_ok ">&2 echo err" started_shell
    {| trace := []; stdout_pipe := err_stdout; stderr_pipe := err_stderr |}
  = Blocks.
Proof.
  apply (Execute_blocks_while_stderr_open os_write_ok ">&2 echo err"
           started_shell
           {| trace := []; stdout_pipe := err_stdout; stderr_pipe := err_stderr |}
           (delimiter ++ newline) [] []).
  - exact started_shell_Running.
  - reflexivity.
  - reflexivity.
  - reflexivity.
  - repeat constructor.
Defined.

(** When the child closes its standard error, the same calls return what
    the tests expect: stdout stripped of the delimiter line and trimmed,
    stderr as it was written. *)
Lemma Execute_echo_after_stderr_closed :
  (exists w',
      Execute os_write_ok "echo hello" started_shell
        {| trace := []; stdout_pipe := hello_stdout; stderr_pipe := [at_EOF] |}
      = Returns ("hello", EmptyString, None, w'))
  /\ (exists w',
         Execute os_write_ok ">&2 echo err" started_shell
           {| trace := []; stdout_pipe := err_stdout;
              stderr_pipe := (err_stderr ++ [at_EOF])%list |}
         = Returns (EmptyString, "err" ++ newline, None, w')).
Proof.
  split; eexists; reflexivity.
Qed.

(** The reading stops on the literal alone.  When the newline after it
    comes with a later [Read], only the literal followed by a newline is
    looked for afterwards, so the literal stays in what is returned and the
    newline stays in the pipe. *)
Lemma Execute_split_delimiter_kept :
  exists w',
    Execute os_write_ok "echo hello" started_shell
      {| trace := []; stdout_pipe := split_stdout; stderr_pipe := [at_EOF] |}
    = Returns ("hello" ++ newline ++ delimiter, EmptyString, None, w')
    /\ stdout_pipe w' = [(newline, None)].
Proof.
  eexists. split; reflexivity.
Qed.

(** *** Claim C10 *)

Lemma delimiter_line_border_free :
  occurrences.border_free (delimiter ++ newline) = true.
Proof. reflexivity. Qed.

Lemma echo_line_border_free :
  occurrences.border_free
    ("echo " ++ dquote ++ delimiter ++ dquote ++ newline) = true.
Proof. reflexivity. Qed.

(** C10. Whatever the command, [Execute] writes it followed by the one
    line that echoes the literal [END_OF_COMMAND_OUTPUT_DELIMITER].  It
    stops reading standard output after the first [Read] with which the
    bytes stored so far contain that literal anywhere, leaving the later
    results in the pipe.  What it returns as stdout is what it stored, with
    every occurrence of the literal followed by a newline deleted, then
    every occurrence of the echo line deleted, then trimmed; so a line of
    the command's own output that equals the delimiter line is deleted as
    well. *)
Theorem Execute_strips_fixed_sentinel
        (os : ExecuteOS) (command : string) (ms : ManagedShell) (w w' : World)
        (out errout : string) :
  Running ms ->
  Execute os command ms w = Returns (out, errout, None, w') ->
  (exists taken tail,
      trace w'
      = (trace w
         ++ CallWrite (command ++ newline ++ "echo " ++ dquote
                       ++ "END_OF_COMMAND_OUTPUT_DELIMITER" ++ dquote ++ newline)
         :: tail)%list
      /\ forallb lifetime.is_Log tail = true
      /\ stdout_pipe w = (taken ++ stdout_pipe w')%list
      /\ (forall k, k < List.length taken ->
            strings.Contains (io.stored (firstn k taken))
              "END_OF_COMMAND_OUTPUT_DELIMITER" = false)
      /\ (strings.Contains (io.stored taken) "END_OF_COMMAND_OUTPUT_DELIMITER" = true
          \/ exists pre data err, taken = (pre ++ [(data, Some err)])%list)
      /\ out
         = strings.TrimSpace
             (occurrences.delete_every
                ("echo " ++ dquote ++ "END_OF_COMMAND_OUTPUT_DELIMITER"
                 ++ dquote ++ newline)
                (occurrences.delete_every
                   ("END_OF_COMMAND_OUTPUT_DELIMITER" ++ newline)
                   (io.stored taken))))
  /\ (exists w'',
         Execute os_write_ok "cat forged" started_shell
           {| trace := []; stdout_pipe := forged_stdout;
              stderr_pipe := [at_EOF] |}
         = Returns ("a" ++ newline ++ "b", EmptyString, None, w'')
         /\ stdout_pipe w'' = [(delimiter ++ newline, None)]).
Proof.
  intros HR HE. split; [|eexists; split; reflexivity].
  assert (Hw : stdinWrite os = None).
  { destruct HR as (Hp & Hin & _). unfold Execute in HE. rewrite Hp in HE.
    cbn [negb] in HE. destruct (stdin ms); [|contradiction].
    destruct (stdinWrite os); [discriminate | reflexivity]. }
  rewrite (Execute_running _ _ _ _ HR Hw) in HE.
  destruct (read_stdout (stdout_pipe w) EmptyString)
    as [[[buf logs] rest]| |] eqn:Hread; cbn [bind] in HE; try discriminate.
  destruct (io.ReadAll _ EmptyString)
    as [[[bytes err] rest']| |] eqn:Hall; cbn [bind] in HE; try discriminate.
  injection HE as <- _ <-.
  destruct (read_stdout_returns _ _ _ _ _ Hread)
    as (taken & Hp & Hacc & Hfirst & Hlogs & Hend).
  cbn [append] in Hacc. subst buf.
  exists taken,
    (logs ++ match err with
             | Some e => [Log ("Error reading stderr: " ++ Error e)]
             | None => []
             end)%list.
  repeat split.
  - destruct err as [e|]; cbn [trace emit with_stderr_pipe];
      rewrite trace_emit_all; cbn [trace emit with_stdout_pipe];
      rewrite <- ?app_assoc; cbn [app]; try reflexivity.
    now rewrite app_nil_r.
  - rewrite forallb_app, Hlogs. now destruct err.
  - rewrite Hp. f_equal.
    destruct err; cbn [stdout_pipe emit with_stderr_pipe];
      now rewrite stdout_pipe_emit_all.
  - intros k Hk. destruct k as [|k]; [reflexivity|].
    apply (Hfirst (S k)). lia.
  - destruct Hend as [(_ & Hc) | (pre & d & e & Ht & _)].
    + left. exact Hc.
    + right. now exists pre, d, e.
  - change "END_OF_COMMAND_OUTPUT_DELIMITER" with delimiter.
    rewrite <- (Remove_deletes_every (delimiter ++ newline)
                  delimiter_line_border_free) by discriminate.
    now rewrite <- (Remove_deletes_every _ echo_line_border_free)
      by discriminate.
Qed.

Lemma Execute_strips_fixed_sentinel_witness :
  exists taken,
    forged_stdout = (taken ++ err_stdout)%list
    /\ "a" ++ newline ++ "b"
       = strings.TrimSpace
           (occurrences.delete_every
              ("echo " ++ dquote ++ "END_OF_COMMAND_OUTPUT_DELIMITER"
               ++ dquote ++ newline)
              (occurrences.delete_every
                 ("END_OF_COMMAND_OUTPUT_DELIMITER" ++ newline)
                 (io.stored taken))).
Proof.
  destruct (Execute_strips_fixed_sentinel os_write_ok "cat forged" started_shell
              {| trace := []; stdout_pipe := forged_stdout;
                 stderr_pipe := [at_EOF] |}
              {| trace := [CallWrite (fullCommand "cat forged")];
                 stdout_pipe := [(delimiter ++ newline, None)];
                 stderr_pipe := [] |}
              ("a" ++ newline ++ "b") EmptyString
              started_shell_Running eq_refl)
    as ((taken & tail & _ & _ & Hp & _ & _ & Hout) & _).
  exists taken. split; [exact Hp | exact Hout].
Defined.

(** ** The line scanner *)

Import scanner.

(** The read at hand returned before the timer fired: takes that branch of
    the loop. *)
Ltac timer_silent :=
  lazymatch goal with
  | |- context [(?t <=? ?x)%nat] =>
      destruct (Nat.leb_spec t x) as [?|_]; [lia|]
  end.

Lemma take_lines_app (line a b : string) :
  take_lines line (a ++ b)
  = (fst (take_lines line a) ++ fst (take_lines (snd (take_lines line a)) b),
     snd (take_lines (snd (take_lines line a)) b))%list.
Proof.
  revert line. induction a as [|c a IH]; intros line.
  - cbn. now destruct (take_lines line b).
  - cbn [append take_lines]. destruct (c =? "010")%char.
    + rewrite IH. destruct (take_lines EmptyString a) as [ls rest]. reflexivity.
    + apply IH.
Qed.

(** The lines come out in the order of the bytes: the terminated lines,
    each followed by its terminator, and the partial line after them spell
    the input. *)
Lemma take_lines_unlines (bs line : string) :
  unlines (fst (take_lines line bs)) ++ snd (take_lines line bs) = line ++ bs.
Proof.
  revert line. induction bs as [|c bs IH]; intros line.
  - cbn. now rewrite append_nil_r.
  - cbn [take_lines]. destruct (c =? "010")%char eqn:Hc.
    + apply Ascii.eqb_eq in Hc. subst c.
      specialize (IH EmptyString).
      destruct (take_lines EmptyString bs) as [ls rest].
      cbn [fst snd unlines] in *. rewrite !append_assoc, IH. reflexivity.
    + rewrite IH, append_assoc. reflexivity.
Qed.

Lemma unterminated_app (a b : string) :
  unterminated (a ++ b) = unterminated a && unterminated b.
Proof.
  induction a as [|c a IH]; cbn; [reflexivity|].
  now rewrite IH, andb_assoc.
Qed.

(** No delivered line holds a terminator, nor does the partial line. *)
Lemma take_lines_unterminated (bs line : string) :
  unterminated line = true ->
  forallb unterminated (fst (take_lines line bs)) = true
  /\ unterminated (snd (take_lines line bs)) = true.
Proof.
  revert line. induction bs as [|c bs IH]; intros line Hline.
  - cbn. split; [reflexivity | exact Hline].
  - cbn [take_lines]. destruct (c =? "010")%char eqn:Hc.
    + destruct (IH EmptyString eq_refl) as [Hls Hrest].
      destruct (take_lines EmptyString bs) as [ls rest].
      cbn [fst snd forallb] in *. rewrite Hline, Hls. split; [reflexivity | exact Hrest].
    + apply IH. rewrite unterminated_app, Hline. cbn. now rewrite Hc.
Qed.

Lemma scan_loop_delivers (timeout last : nat) (source : Source) :
  forall (rem : list (nat * string)) (i : nat) (line : string)
         (stallCount idle : nat) (out : list string) (fuel : nat),
    (forall j d bs, nth_error rem j = Some (d, bs) ->
                    source (i + j) = {| latency := d; outcome := Bytes bs |}) ->
    source (i + List.length rem) = {| latency := last; outcome := EndOfStream |} ->
    paced timeout stallCount idle rem last = true ->
    List.length rem < fuel ->
    scan_loop fuel timeout source i line stallCount idle out
    = Some (finish Completed
              (out ++ fst (take_lines line (bytes_of rem))
                   ++ flush (snd (take_lines line (bytes_of rem))))%list
              (S (i + List.length rem)) (silence_at_end idle rem last)).
Proof.
  induction rem as [|[d bs] rem IH];
    intros i line stallCount idle out fuel Hreads Hend Hpaced Hfuel.
  - destruct fuel as [|fuel]; [cbn in Hfuel; lia|].
    cbn [List.length] in Hend. rewrite Nat.add_0_r in Hend.
    cbn [paced] in Hpaced. apply Nat.ltb_lt in Hpaced.
    cbn [scan_loop]. rewrite Hend. cbn [latency outcome].
    timer_silent.
    cbn. now rewrite Nat.add_0_r.
  - destruct fuel as [|fuel]; [cbn in Hfuel; lia|].
    cbn [paced] in Hpaced. apply andb_true_iff in Hpaced.
    destruct Hpaced as [Hd Hpaced]. apply Nat.ltb_lt in Hd.
    pose proof (Hreads 0 d bs eq_refl) as H0. rewrite Nat.add_0_r in H0.
    assert (Hreads' : forall j d' bs', nth_error rem j = Some (d', bs') ->
              source (S i + j) = {| latency := d'; outcome := Bytes bs' |}).
    { intros j d' bs' Hj. replace (S i + j) with (i + S j) by lia.
      now apply Hreads. }
    assert (Hend' : source (S i + List.length rem)
                    = {| latency := last; outcome := EndOfStream |}).
    { cbn [List.length] in Hend.
      now replace (S i + List.length rem) with (i + S (List.length rem)) by lia. }
    assert (Hfuel' : List.length rem < fuel) by (cbn [List.length] in Hfuel; lia).
    cbn [scan_loop]. rewrite H0. cbn [latency outcome].
    timer_silent.
    destruct bs as [|c bs].
    + apply andb_true_iff in Hpaced. destruct Hpaced as [Hstall Hpaced].
      apply Nat.eqb_eq in Hstall. subst stallCount. cbn [Nat.leb].
      rewrite (IH (S i) line 1 (idle + d) out fuel Hreads' Hend' Hpaced Hfuel').
      cbn [bytes_of append List.length silence_at_end].
      replace (S i + List.length rem) with (i + S (List.length rem)) by lia.
      reflexivity.
    + destruct (take_lines line (String c bs)) as [ls line'] eqn:Htl.
      rewrite (IH (S i) line' 0 0 (out ++ ls)%list fuel Hreads' Hend' Hpaced Hfuel').
      cbn [bytes_of silence_at_end].
      rewrite (take_lines_app line (String c bs)), Htl.
      cbn [fst snd List.length]. rewrite <- !app_assoc.
      replace (S i + List.length rem) with (i + S (List.length rem)) by lia.
      reflexivity.
Qed.

(** *** Claim C6 *)

(** C6. A source whose reads each return before the timer fires, no two
    in a row without bytes, and that then ends, has its lines delivered in
    the order of its bytes: the terminated lines and then the unterminated
    rest, if any, after which the channel and the source are closed; the
    lines hold no terminator and, each followed by one, spell the bytes up
    to the rest.  For the bytes [beans and], newline, [rice], however the
    reads cut them, these are the two lines [beans and] and [rice]. *)
Theorem BuffScanner_lines_in_order
        (timeout : nat) (label : string) (source : Source)
        (chunks : list (nat * string)) (last fuel : nat) :
  delivers source chunks last ->
  paced timeout 0 0 chunks last = true ->
  List.length chunks < fuel ->
  BuffScanner fuel timeout label source
  = Some {| lines := lines_of (bytes_of chunks);
            channel_closes := 1; source_closes := 1; ending := Completed;
            reads := S (List.length chunks);
            silence := silence_at_end 0 chunks last |}
  /\ (exists ls rest,
         lines_of (bytes_of chunks) = (ls ++ flush rest)%list
         /\ unlines ls ++ rest = bytes_of chunks
         /\ forallb unterminated ls = true /\ unterminated rest = true)
  /\ (bytes_of chunks = "beans and" ++ newline ++ "rice" ->
      BuffScanner fuel timeout label source
      = Some {| lines := ["beans and"; "rice"];
                channel_closes := 1; source_closes := 1; ending := Completed;
                reads := S (List.length chunks);
                silence := silence_at_end 0 chunks last |}).
Proof.
  intros [Hreads Hend] Hpaced Hfuel.
  assert (Hscan : BuffScanner fuel timeout label source
                  = Some (finish Completed (lines_of (bytes_of chunks))
                            (S (List.length chunks))
                            (silence_at_end 0 chunks last))).
  { unfold BuffScanner.
    rewrite (scan_loop_delivers timeout last source chunks 0
               EmptyString 0 0 [] fuel); try assumption.
    unfold lines_of.
    destruct (take_lines EmptyString (bytes_of chunks)) as [ls rest].
    reflexivity. }
  split; [exact Hscan|]. split.
  - exists (fst (take_lines EmptyString (bytes_of chunks))),
      (snd (take_lines EmptyString (bytes_of chunks))).
    split; [|split].
    + unfold lines_of.
      now destruct (take_lines EmptyString (bytes_of chunks)).
    + apply (take_lines_unlines (bytes_of chunks) EmptyString).
    + now apply take_lines_unterminated.
  - intros Hbytes. rewrite Hscan, Hbytes. reflexivity.
Qed.

Lemma simpleReader_delivers :
  delivers (simpleReader ("beans and" ++ newline ++ "rice"))
    [(0, "beans and" ++ newline ++ "rice")] 0.
Proof.
  split.
  - intros [|[|i]] d bs H; try discriminate.
    injection H as <- <-. reflexivity.
  - reflexivity.
Defined.

Lemma BuffScanner_lines_in_order_witness :
  BuffScanner 3 1000 "heybuddy" (simpleReader ("beans and" ++ newline ++ "rice"))
  = Some {| lines := ["beans and"; "rice"];
            channel_closes := 1; source_closes := 1; ending := Completed;
            reads := 2; silence := 0 |}.
Proof.
  refine (proj2 (proj2 (BuffScanner_lines_in_order 1000 "heybuddy"
                          (simpleReader ("beans and" ++ newline ++ "rice"))
                          [(0, "beans and" ++ newline ++ "rice")] 0 3
                          simpleReader_delivers _ _)) eq_refl).
  - reflexivity.
  - cbn. lia.
Defined.

(** *** Claim C4 *)

(** C4. When a read of the source is still blocked after the source has
    been silent for the timeout, whatever that read would hand back, the
    scan emits the one line [timeout] after the lines already delivered,
    closes the channel and closes the source; when this is the first read,
    the channel yields exactly that one line. *)
Theorem BuffScanner_timeout
        (fuel timeout : nat) (label : string) (source : Source) :
  timeout < latency (source 0) ->
  BuffScanner (S fuel) timeout label source
  = Some {| lines := ["timeout"];
            channel_closes := 1; source_closes := 1; ending := TimedOut;
            reads := 1; silence := timeout |}
  /\ (forall i line stallCount idle out,
         timeout < idle + latency (source i) ->
         scan_loop (S fuel) timeout source i line stallCount idle out
         = Some {| lines := (out ++ ["timeout"])%list;
                   channel_closes := 1; source_closes := 1; ending := TimedOut;
                   reads := S i; silence := timeout |}).
Proof.
  intros H.
  assert (Hloop : forall i line stallCount idle out,
             timeout < idle + latency (source i) ->
             scan_loop (S fuel) timeout source i line stallCount idle out
             = Some (finish TimedOut (out ++ [MsgTimeout])%list (S i) timeout)).
  { intros i line stallCount idle out Hi. cbn [scan_loop].
    destruct (Nat.leb_spec timeout (idle + latency (source i))) as [_|Hlt];
      [reflexivity | lia]. }
  split.
  - unfold BuffScanner. rewrite Hloop; [reflexivity | cbn; exact H].
  - exact Hloop.
Qed.

Lemma BuffScanner_timeout_witness :
  BuffScanner 1 1000 "heybuddy" stalledReader
  = Some {| lines := ["timeout"];
            channel_closes := 1; source_closes := 1; ending := TimedOut;
            reads := 1; silence := 1000 |}.
Proof.
  refine (proj1 (BuffScanner_timeout 0 1000 "heybuddy" stalledReader _)).
  cbn. lia.
Defined.

(** *** Claim C5 *)

(** A scan that ends on the malfunction has seen the timer not fire. *)
Lemma scan_loop_malfunction_in_time (timeout : nat) (source : Source) :
  forall (fuel i : nat) (line : string) (stallCount idle : nat)
         (out : list string) (r : Scanned),
    scan_loop fuel timeout source i line stallCount idle out = Some r ->
    ending r = Malfunctioned ->
    silence r < timeout.
Proof.
  induction fuel as [|fuel IH]; intros i line stallCount idle out r Hscan Hend.
  - discriminate.
  - cbn [scan_loop] in Hscan.
    destruct (Nat.leb_spec timeout (idle + latency (source i))) as [_|Hlt].
    + injection Hscan as <-. discriminate.
    + destruct (outcome (source i)) as [bs| |msg].
      * destruct bs as [|c bs].
        -- destruct (1 <=? stallCount)%nat.
           ++ injection Hscan as <-. exact Hlt.
           ++ exact (IH _ _ _ _ _ _ Hscan Hend).
        -- destruct (take_lines line (String c bs)) as [ls line'].
           exact (IH _ _ _ _ _ _ Hscan Hend).
      * injection Hscan as <-. discriminate.
      * injection Hscan as <-. discriminate.
Qed.

(** C5. When the first two reads of the source return no bytes and no
    error, the channel yields exactly the one line [error : multiple Read
    calls return no data or error] and is closed, and so is the source; the
    scan has issued two reads.  At any point of a scan, a first read of no
    bytes and no error is passed over without a line, and the second one in
    a row ends the scan with that line.  A scan that ends this way ends
    strictly before the timer would have fired. *)
Theorem BuffScanner_malfunction
        (fuel timeout : nat) (label : string) (source : Source) :
  outcome (source 0) = Bytes EmptyString ->
  outcome (source 1) = Bytes EmptyString ->
  latency (source 0) + latency (source 1) < timeout ->
  BuffScanner (S (S fuel)) timeout label source
  = Some {| lines := ["error : multiple Read calls return no data or error"];
            channel_closes := 1; source_closes := 1; ending := Malfunctioned;
            reads := 2;
            silence := latency (source 0) + latency (source 1) |}
  /\ (forall i line idle out,
         outcome (source i) = Bytes EmptyString ->
         idle + latency (source i) < timeout ->
         scan_loop (S fuel) timeout source i line 0 idle out
         = scan_loop fuel timeout source (S i) line 1
             (idle + latency (source i)) out)
  /\ (forall i line idle out,
         outcome (source i) = Bytes EmptyString ->
         idle + latency (source i) < timeout ->
         scan_loop (S fuel) timeout source i line 1 idle out
         = Some {| lines :=
                     (out ++ ["error : multiple Read calls return no data or error"])%list;
                   channel_closes := 1; source_closes := 1;
                   ending := Malfunctioned; reads := S i;
                   silence := idle + latency (source i) |})
  /\ (forall n r,
         BuffScanner n timeout label source = Some r ->
         ending r = Malfunctioned ->
         silence r < timeout).
Proof.
  intros H0 H1 Hlt.
  assert (Hfirst : forall f i line idle out,
             outcome (source i) = Bytes EmptyString ->
             idle + latency (source i) < timeout ->
             scan_loop (S f) timeout source i line 0 idle out
             = scan_loop f timeout source (S i) line 1
                 (idle + latency (source i)) out).
  { intros f i line idle out Hi Hin. cbn [scan_loop].
    timer_silent.
    rewrite Hi. reflexivity. }
  assert (Hsecond : forall f i line idle out,
             outcome (source i) = Bytes EmptyString ->
             idle + latency (source i) < timeout ->
             scan_loop (S f) timeout source i line 1 idle out
             = Some (finish Malfunctioned (out ++ [MsgMalfunction])%list (S i)
                       (idle + latency (source i)))).
  { intros f i line idle out Hi Hin. cbn [scan_loop].
    timer_silent.
    rewrite Hi. reflexivity. }
  split; [|split; [|split]].
  - unfold BuffScanner.
    rewrite (Hfirst (S fuel)); [|exact H0 | cbn; lia].
    rewrite (Hsecond fuel); [reflexivity | exact H1 | cbn; lia].
  - apply Hfirst.
  - apply Hsecond.
  - intros n r. unfold BuffScanner. apply scan_loop_malfunction_in_time.
Qed.

Lemma BuffScanner_malfunction_witness :
  BuffScanner 2 1000 "heybuddy" bustedReader
  = Some {| lines := ["error : multiple Read calls return no data or error"];
            channel_closes := 1; source_closes := 1; ending := Malfunctioned;
            reads := 2; silence := 0 |}.
Proof.
  refine (proj1 (BuffScanner_malfunction 0 1000 "heybuddy" bustedReader
                   eq_refl eq_refl _)).
  cbn. lia.
Defined.

(** * Further properties of the code *)

(** ** Substrings *)

Lemma prefix_true_app (sub a b : string) :
  prefix sub a = true -> prefix sub (a ++ b) = true.
Proof.
  intros H. destruct (prefix_split _ _ H) as [x ->].
  rewrite append_assoc. apply prefix_app.
Qed.

Lemma Contains_app_r (a b sub : string) :
  strings.Contains a sub = true -> strings.Contains (a ++ b) sub = true.
Proof.
  induction a as [|c a IH]; cbn [strings.Contains append]; intros H.
  - rewrite orb_false_r in H.
    destruct sub; [now destruct b | discriminate].
  - apply orb_true_iff in H. apply orb_true_iff. destruct H as [H | H].
    + left. exact (prefix_true_app _ (String c a) b H).
    + right. now apply IH.
Qed.

Lemma Contains_app_l (a b sub : string) :
  strings.Contains b sub = true -> strings.Contains (a ++ b) sub = true.
Proof.
  intros H. induction a as [|c a IH]; [exact H|].
  cbn [strings.Contains append]. rewrite IH. apply orb_true_r.
Qed.

Lemma Contains_middle (a sub b : string) :
  strings.Contains (a ++ sub ++ b) sub = true.
Proof.
  apply Contains_app_l.
  destruct sub as [|c sub].
  - now destruct b.
  - cbn [strings.Contains append]. apply orb_true_iff. left.
    exact (prefix_app (String c sub) b).
Qed.

Lemma Contains_split (s sub : string) :
  strings.Contains s sub = true -> exists a b, s = a ++ sub ++ b.
Proof.
  induction s as [|c s IH]; cbn [strings.Contains]; intros H.
  - rewrite orb_false_r in H. destruct (prefix_split _ _ H) as [b ->].
    now exists EmptyString, b.
  - apply orb_true_iff in H. destruct H as [H | H].
    + destruct (prefix_split _ _ H) as [b Hb]. exists EmptyString, b. exact Hb.
    + destruct (IH H) as (a & b & ->). now exists (String c a), b.
Qed.

(** What contains a string contains its parts. *)
Lemma Contains_part (s pre sub post : string) :
  strings.Contains s (pre ++ sub ++ post) = true ->
  strings.Contains s sub = true.
Proof.
  intros H. destruct (Contains_split _ _ H) as (a & b & ->).
  rewrite !append_assoc, <- (append_assoc a pre). apply Contains_middle.
Qed.

(** Two ways to cut one string: the shorter head is a head of the longer. *)
Lemma append_eq_split (t a y b : string) :
  a ++ y = t ++ b -> String.length t <= String.length a ->
  exists x, a = t ++ x /\ b = x ++ y.
Proof.
  revert a. induction t as [|c t IH]; intros a H Hlen.
  - exists a. split; [reflexivity | symmetry; exact H].
  - destruct a as [|d a]; [cbn in Hlen; lia|].
    cbn [append] in H. injection H as -> H.
    destruct (IH a H) as (x & -> & ->); [cbn in Hlen; lia|].
    now exists x.
Qed.

Lemma remove_from_skip_all (old s : string) :
  strings.remove_from old (String.length s) s = EmptyString.
Proof.
  induction s as [|c s IH]; [reflexivity | exact IH].
Qed.

(** Without an occurrence, [strings.Replace] returns its argument. *)
Lemma Remove_no_occurrence (s old : string) :
  strings.Contains s old = false -> strings.Remove s old = s.
Proof.
  unfold strings.Remove. destruct old as [|x old]; [reflexivity|].
  induction s as [|c s IH]; [reflexivity|].
  cbn [strings.Contains strings.remove_from]. intros H.
  apply orb_false_iff in H. destruct H as [-> H]. now rewrite (IH H).
Qed.

Lemma prefix_refl (s : string) : prefix s s = true.
Proof.
  pose proof (prefix_app s EmptyString) as H. now rewrite append_nil_r in H.
Qed.

Lemma remove_from_self (old : string) :
  strings.remove_from old 0 old = EmptyString.
Proof.
  destruct old as [|c r]; [reflexivity|].
  cbn [strings.remove_from]. rewrite prefix_refl.
  replace (String.length (String c r) - 1) with (String.length r)
    by (cbn [String.length]; lia).
  apply remove_from_skip_all.
Qed.

Lemma Remove_nonempty (s old : string) :
  old <> EmptyString -> strings.Remove s old = strings.remove_from old 0 s.
Proof.
  destruct old; [contradiction | reflexivity].
Qed.

Section TrailingOccurrence.

Variable old : string.
Hypothesis old_border_free : occurrences.border_free old = true.
Hypothesis old_not_empty : old <> EmptyString.

(** After bytes that hold no occurrence of the first part of [old], no
    occurrence of [old] starts before the one appended to them. *)
Lemma no_occurrence_before_tail (core tail t : string) :
  old = core ++ tail ->
  t <> EmptyString ->
  strings.Contains t core = false ->
  prefix old (t ++ old) = false.
Proof.
  intros Hold Ht Hfree.
  destruct (prefix old (t ++ old)) eqn:Hocc; [exfalso | reflexivity].
  destruct (prefix_split _ _ Hocc) as [y Hy].
  destruct (Nat.le_gt_cases (String.length old) (String.length t)) as [Hle | Hgt].
  - destruct (append_eq_split old t old y Hy Hle) as (x & Hx & _).
    assert (Hc : strings.Contains t core = true).
    { rewrite Hx, Hold, append_assoc.
      exact (Contains_middle EmptyString core (tail ++ x)). }
    congruence.
  - destruct (append_eq_split t old y old (eq_sym Hy)) as (x & Hx & Hx'); [lia|].
    apply (border_free_sound old old_border_free t x y Hx Hx' Ht).
    intros ->. rewrite append_nil_r in Hx. rewrite Hx in Hgt. lia.
Qed.

(** [strings.Replace] takes the occurrence at the end away and leaves what
    comes before it, when that holds no occurrence of the first part. *)
Lemma Remove_trailing (core tail body : string) :
  old = core ++ tail ->
  strings.Contains body core = false ->
  strings.Remove (body ++ old) old = body.
Proof.
  intros Hold. rewrite (Remove_nonempty _ _ old_not_empty).
  induction body as [|c body IH]; intros Hfree.
  - apply remove_from_self.
  - cbn [append strings.remove_from].
    change (String c (body ++ old)) with (String c body ++ old).
    rewrite (no_occurrence_before_tail core tail (String c body) Hold)
      by (discriminate || exact Hfree).
    f_equal. apply IH.
    cbn [strings.Contains] in Hfree. apply orb_false_iff in Hfree. tauto.
Qed.

End TrailingOccurrence.

(** ** [Execute]: what it returns *)

Lemma Contains_false_app_r (a b sub : string) :
  strings.Contains (a ++ b) sub = false -> strings.Contains a sub = false.
Proof.
  intros H. destruct (strings.Contains a sub) eqn:Ha; [|reflexivity].
  now rewrite (Contains_app_r a b sub Ha) in H.
Qed.

(** The goroutine reads on while the stored bytes do not hold the
    delimiter, and stops with the [Read] that brings it. *)
Lemma read_stdout_run (pre : io.Pipe) (x : string) (rest : io.Pipe) :
  Forall io.no_error pre ->
  forall b,
    strings.Contains (b ++ io.stored pre) delimiter = false ->
    strings.Contains (b ++ io.stored pre ++ x) delimiter = true ->
    read_stdout (pre ++ (x, None) :: rest)%list b
    = Returns (b ++ io.stored pre ++ x, [], rest).
Proof.
  induction 1 as [|[d e] pre He _ IH]; intros b Hno Hyes.
  - cbn [app read_stdout io.stored append] in *. now rewrite Hyes.
  - unfold io.no_error in He. cbn in He. subst e.
    cbn [app read_stdout io.stored] in *.
    specialize (IH (b ++ d)). rewrite !append_assoc in *.
    rewrite <- (append_assoc b d) in Hno.
    rewrite (Contains_false_app_r _ _ _ Hno).
    rewrite append_assoc in Hno.
    exact (IH Hno Hyes).
Qed.

(** It stops as well with the first [Read] that reports an error, and
    stays silent about [io.EOF]. *)
Lemma read_stdout_ends (pre : io.Pipe) (x : string) (err : error)
      (rest : io.Pipe) :
  Forall io.no_error pre ->
  forall b,
    strings.Contains (b ++ io.stored pre) delimiter = false ->
    read_stdout (pre ++ (x, Some err) :: rest)%list b
    = Returns (b ++ io.stored pre,
               if is_EOF err then []
               else [Log ("Error reading stdout: " ++ Error err)],
               rest).
Proof.
  induction 1 as [|[d e] pre He _ IH]; intros b Hno.
  - cbn [app read_stdout io.stored]. now rewrite append_nil_r.
  - unfold io.no_error in He. cbn in He. subst e.
    cbn [app read_stdout io.stored] in *.
    specialize (IH (b ++ d)). rewrite !append_assoc in *.
    rewrite <- (append_assoc b d) in Hno.
    rewrite (Contains_false_app_r _ _ _ Hno).
    rewrite append_assoc in Hno.
    exact (IH Hno).
Qed.

Lemma ReadAll_run (pre : io.Pipe) (x : string) (err : error) (rest : io.Pipe) :
  Forall io.no_error pre ->
  forall b,
    io.ReadAll (pre ++ (x, Some err) :: rest)%list b
    = Returns (b ++ io.stored pre ++ x,
               if is_EOF err then None else Some err, rest).
Proof.
  induction 1 as [|[d e] pre He _ IH]; intros b.
  - reflexivity.
  - unfold io.no_error in He. cbn in He. subst e.
    cbn [app io.ReadAll io.stored]. rewrite IH. now rewrite !append_assoc.
Qed.

Lemma no_delimiter_no_delimiter_line (s : string) :
  strings.Contains s delimiter = false ->
  strings.Contains s (delimiter ++ newline) = false.
Proof.
  intros H. destruct (strings.Contains s (delimiter ++ newline)) eqn:Hc;
    [|reflexivity].
  now rewrite (Contains_part s EmptyString delimiter newline Hc) in H.
Qed.

Lemma no_delimiter_no_echo_line (s : string) :
  strings.Contains s delimiter = false ->
  strings.Contains s ("echo " ++ dquote ++ delimiter ++ dquote ++ newline) = false.
Proof.
  intros H.
  destruct (strings.Contains s ("echo " ++ dquote ++ delimiter ++ dquote ++ newline))
    eqn:Hc; [|reflexivity].
  now rewrite (Contains_part s ("echo " ++ dquote) delimiter (dquote ++ newline) Hc)
    in H.
Qed.

(** X1. A command that completes.  On a running shell whose input takes
    the write, when the child's output, free of the delimiter, is followed
    by the delimiter line in the [Read] that completes it, and its
    standard error ends, [Execute] returns exactly that output, trimmed,
    the bytes of standard error untouched, and no error; it has made one
    write and has left in the two pipes what came after. *)
Theorem Execute_returns_own_output
        (os : ExecuteOS) (command : string) (ms : ManagedShell) (w : World)
        (pre rest epre erest : io.Pipe) (tail elast : string) :
  Running ms ->
  stdinWrite os = None ->
  stdout_pipe w
  = (pre ++ ((tail ++ delimiter ++ newline)%string, None) :: rest)%list ->
  Forall io.no_error pre ->
  strings.Contains (io.stored pre ++ tail) delimiter = false ->
  stderr_pipe w = (epre ++ (elast, Some EOF) :: erest)%list ->
  Forall io.no_error epre ->
  Execute os command ms w
  = Returns (strings.TrimSpace (io.stored pre ++ tail),
             io.stored epre ++ elast, None,
             {| trace := (trace w ++ [CallWrite (fullCommand command)])%list;
                stdout_pipe := rest; stderr_pipe := erest |}).
Proof.
  intros HR Hw Hout Hpre Hfree Herr Hepre.
  rewrite (Execute_running _ _ _ _ HR Hw), Hout.
  rewrite (read_stdout_run pre _ rest Hpre EmptyString).
  - cbn [bind emit_all fold_left with_stdout_pipe emit stderr_pipe append].
    rewrite Herr, (ReadAll_run epre elast EOF erest Hepre EmptyString).
    cbn [bind is_EOF append with_stderr_pipe trace stdout_pipe].
    rewrite <- (append_assoc (io.stored pre) tail).
    rewrite (Remove_trailing (delimiter ++ newline) delimiter_line_border_free
               ltac:(discriminate) delimiter newline _ eq_refl Hfree).
    rewrite Remove_no_occurrence; [reflexivity|].
    exact (no_delimiter_no_echo_line _ Hfree).
  - exact (Contains_false_app_r _ _ _ Hfree).
  - cbn [append]. rewrite <- (append_assoc (io.stored pre) tail).
    apply Contains_middle.
Qed.

Lemma Execute_returns_own_output_witness :
  Execute os_write_ok "echo hello; echo oops >&2" started_shell
    {| trace := [];
       stdout_pipe := [("hel", None); ("lo" ++ newline ++ delimiter ++ newline, None)];
       stderr_pipe := [("oops" ++ newline, None); at_EOF] |}
  = Returns ("hello", "oops" ++ newline, None,
             {| trace := [CallWrite (fullCommand "echo hello; echo oops >&2")];
                stdout_pipe := []; stderr_pipe := [] |}).
Proof.
  apply (Execute_returns_own_output os_write_ok "echo hello; echo oops >&2"
           started_shell
           {| trace := [];
              stdout_pipe := [("hel", None);
                              ("lo" ++ newline ++ delimiter ++ newline, None)];
              stderr_pipe := [("oops" ++ newline, None); at_EOF] |}
           [("hel", None)] [] [("oops" ++ newline, None)] []
           ("lo" ++ newline) EmptyString).
  - exact started_shell_Running.
  - reflexivity.
  - reflexivity.
  - repeat constructor.
  - reflexivity.
  - reflexivity.
  - repeat constructor.
Defined.



(** X3. A child that goes away.  When standard output reports the end of
    the stream, or any error, before the delimiter has come, [Execute]
    returns what it has read so far, trimmed, with a nil error; the error
    is only logged, and not even that when it is [io.EOF]. *)
Theorem Execute_stdout_ends_early
        (os : ExecuteOS) (command : string) (ms : ManagedShell) (w : World)
        (pre rest epre erest : io.Pipe) (x elast : string) (err : error) :
  Running ms ->
  stdinWrite os = None ->
  stdout_pipe w = (pre ++ (x, Some err) :: rest)%list ->
  Forall io.no_error pre ->
  strings.Contains (io.stored pre) delimiter = false ->
  stderr_pipe w = (epre ++ (elast, Some EOF) :: erest)%list ->
  Forall io.no_error epre ->
  Execute os command ms w
  = Returns (strings.TrimSpace (io.stored pre),
             io.stored epre ++ elast, None,
             {| trace :=
                  (trace w ++ CallWrite (fullCommand command)
                   :: if is_EOF err then []
                      else [Log ("Error reading stdout: " ++ Error err)])%list;
                stdout_pipe := rest; stderr_pipe := erest |}).
Proof.
  intros HR Hw Hout Hpre Hfree Herr Hepre.
  rewrite (Execute_running _ _ _ _ HR Hw), Hout.
  rewrite (read_stdout_ends pre x err rest Hpre EmptyString Hfree).
  cbn [bind append]. rewrite stderr_pipe_emit_all.
  cbn [with_stdout_pipe emit stderr_pipe].
  rewrite Herr, (ReadAll_run epre elast EOF erest Hepre EmptyString).
  cbn [bind is_EOF append].
  rewrite (Remove_no_occurrence _ _ (no_delimiter_no_delimiter_line _ Hfree)).
  rewrite Remove_no_occurrence by exact (no_delimiter_no_echo_line _ Hfree).
  do 2 f_equal. unfold with_stderr_pipe.
  rewrite trace_emit_all, stdout_pipe_emit_all.
  cbn [trace stdout_pipe with_stdout_pipe emit].
  now rewrite <- app_assoc.
Qed.

Lemma Execute_stdout_ends_early_witness :
  Execute os_write_ok "exit" started_shell
    {| trace := [];
       stdout_pipe := [("bye" ++ newline, None);
                       (EmptyString, Some (errorString "read |0: file already closed"))];
       stderr_pipe := [at_EOF] |}
  = Returns ("bye", EmptyString, None,
             {| trace := [CallWrite (fullCommand "exit");
                          Log "Error reading stdout: read |0: file already closed"];
                stdout_pipe := []; stderr_pipe := [] |}).
Proof.
  apply (Execute_stdout_ends_early os_write_ok "exit" started_shell
           {| trace := [];
              stdout_pipe := [("bye" ++ newline, None);
                              (EmptyString,
                               Some (errorString "read |0: file already closed"))];
              stderr_pipe := [at_EOF] |}
           [("bye" ++ newline, None)] [] [] [] EmptyString EmptyString
           (errorString "read |0: file already closed")).
  - exact started_shell_Running.
  - reflexivity.
  - reflexivity.
  - repeat constructor.
  - reflexivity.
  - reflexivity.
  - constructor.
Defined.

(** X4. The errors of [Execute].  Whatever the shell and the world, an
    [Execute] that returns an error returns empty stdout and stderr and has
    read nothing from the two pipes; the error is [shell process not
    started], with nothing written, or it wraps the error of the one write
    that was attempted.  Once that write has succeeded [Execute] returns no
    error at all. *)
Theorem Execute_errors
        (os : ExecuteOS) (command : string) (ms : ManagedShell) (w w' : World)
        (out errout : string) (err : option error) :
  Execute os command ms w = Returns (out, errout, err, w') ->
  (stdinWrite os = None -> has_process ms = true -> err = None)
  /\ (forall e, err = Some e ->
        out = EmptyString /\ errout = EmptyString
        /\ stdout_pipe w' = stdout_pipe w /\ stderr_pipe w' = stderr_pipe w
        /\ ((has_process ms = false
             /\ e = errorString "shell process not started" /\ w' = w)
            \/ (exists cause,
                   has_process ms = true /\ stdinWrite os = Some cause
                   /\ e = wrapError "failed to write to stdin" cause
                   /\ Error e = "failed to write to stdin: " ++ Error cause
                   /\ trace w' = (trace w ++ [CallWrite (fullCommand command)])%list))).
Proof.
  unfold Execute. destruct (has_process ms) eqn:Hp; cbn [negb].
  - destruct (stdin ms); [|discriminate].
    destruct (stdinWrite os) as [cause|] eqn:Hw.
    + intros H. injection H as <- <- <- <-. split; [discriminate|].
      intros e He. injection He as <-. repeat split.
      right. exists cause. repeat split.
    + destruct (stdout ms); [|discriminate].
      destruct (read_stdout _ _) as [[[buf logs] rest]| |]; cbn [bind];
        try discriminate.
      destruct (stderr ms); [|discriminate].
      destruct (io.ReadAll _ _) as [[[bytes e'] rest']| |]; cbn [bind];
        try discriminate.
      intros H. injection H as _ _ <- _. split; [reflexivity | discriminate].
  - intros H. injection H as <- <- <- <-. split; [discriminate|].
    intros e He. injection He as <-. repeat split. left. repeat split.
Qed.

Lemma Execute_errors_witness :
  exists cause,
    stdinWrite {| stdinWrite := Some (errorString "write |1: broken pipe") |}
    = Some cause
    /\ Error (wrapError "failed to write to stdin"
                (errorString "write |1: broken pipe"))
       = "failed to write to stdin: " ++ Error cause.
Proof.
  destruct (proj2 (Execute_errors
                     {| stdinWrite := Some (errorString "write |1: broken pipe") |}
                     "ls" started_shell started_world _ _ _ _ eq_refl) _ eq_refl)
    as (_ & _ & _ & _ & [(H & _) | (cause & _ & Hc & _ & He & _)]).
  - discriminate H.
  - exists cause. split; assumption.
Defined.

(** ** [Start] and [Stop]: order of the calls and misuse *)

(** Both sides of an equivalence hold by looking at them. *)
Ltac holds :=
  split; intros _;
  [ repeat eexists
  | cbn; first [ reflexivity | repeat ((left; reflexivity) || right) ] ].

(** Neither side of an equivalence holds. *)
Ltac fails :=
  split; intros H;
  [ cbn in H; intuition discriminate
  | decompose record H; discriminate ].

(** X5. [Start] on a shell that has its command never panics.  It returns
    a nil error exactly when the three pipes and the launch succeed, and
    then the shell is running.  Otherwise its error wraps the error of the
    first step that failed, and no later step is attempted: the process is
    launched only when all three pipes were obtained. *)
Theorem Start_stops_at_first_failure
        (os : StartOS) (ms : ManagedShell) (w : World) :
  cmd ms <> None ->
  exists ms' w' err calls,
    Start os ms w = Returns (ms', w', err)
    /\ trace w' = (trace w ++ calls)%list
    /\ stdout_pipe w' = stdout_pipe w /\ stderr_pipe w' = stderr_pipe w
    /\ (err = None <->
        exists hin hout herr pid,
          StdinPipe os = Ok hin /\ StdoutPipe os = Ok hout
          /\ StderrPipe os = Ok herr /\ cmdStart os = Ok pid)
    /\ (err = None -> Running ms')
    /\ (In CallStdoutPipe calls <-> exists hin, StdinPipe os = Ok hin)
    /\ (In CallStderrPipe calls <->
        exists hin hout, StdinPipe os = Ok hin /\ StdoutPipe os = Ok hout)
    /\ (In CallStart calls <->
        exists hin hout herr,
          StdinPipe os = Ok hin /\ StdoutPipe os = Ok hout
          /\ StderrPipe os = Ok herr)
    /\ (forall e, err = Some e ->
        exists step cause,
          e = wrapError step cause
          /\ ((step = "failed to get stdin pipe" /\ StdinPipe os = Failed cause)
              \/ (step = "failed to get stdout pipe" /\ StdoutPipe os = Failed cause)
              \/ (step = "failed to get stderr pipe" /\ StderrPipe os = Failed cause)
              \/ (step = "failed to start shell process"
                  /\ cmdStart os = Failed cause))).
Proof.
  intros Hcmd. unfold Start.
  destruct (cmd ms) as [c|] eqn:Hc; [clear Hcmd | contradiction].
  destruct (StdinPipe os) as [hin|e1];
    [destruct (StdoutPipe os) as [hout|e2];
     [destruct (StderrPipe os) as [herr|e3];
      [destruct (cmdStart os) as [pid|e4]|]|]|];
    do 3 eexists.
  - exists [CallStdinPipe; CallStdoutPipe; CallStderrPipe; CallStart;
            Log "Shell process started."].
    split; [reflexivity|]. split; [cbn; now rewrite <- !app_assoc|].
    split; [reflexivity|]. split; [reflexivity|].
    split; [holds|]. split.
    { intros _. split; [|repeat split; discriminate].
      apply has_process_set_Process. cbn. rewrite Hc. discriminate. }
    split; [holds|]. split; [holds|]. split; [holds|].
    intros e He. discriminate He.
  - exists [CallStdinPipe; CallStdoutPipe; CallStderrPipe; CallStart].
    split; [reflexivity|]. split; [cbn; now rewrite <- !app_assoc|].
    split; [reflexivity|]. split; [reflexivity|].
    split; [fails|]. split; [intros H; discriminate H|].
    split; [holds|]. split; [holds|]. split; [holds|].
    intros e He. injection He as <-. do 2 eexists. split; [reflexivity|].
    do 3 right. split; reflexivity.
  - exists [CallStdinPipe; CallStdoutPipe; CallStderrPipe].
    split; [reflexivity|]. split; [cbn; now rewrite <- !app_assoc|].
    split; [reflexivity|]. split; [reflexivity|].
    split; [fails|]. split; [intros H; discriminate H|].
    split; [holds|]. split; [holds|]. split; [fails|].
    intros e He. injection He as <-. do 2 eexists. split; [reflexivity|].
    do 2 right. left. split; reflexivity.
  - exists [CallStdinPipe; CallStdoutPipe].
    split; [reflexivity|]. split; [cbn; now rewrite <- !app_assoc|].
    split; [reflexivity|]. split; [reflexivity|].
    split; [fails|]. split; [intros H; discriminate H|].
    split; [holds|]. split; [fails|]. split; [fails|].
    intros e He. injection He as <-. do 2 eexists. split; [reflexivity|].
    right. left. split; reflexivity.
  - exists [CallStdinPipe].
    split; [reflexivity|]. split; [reflexivity|].
    split; [reflexivity|]. split; [reflexivity|].
    split; [fails|]. split; [intros H; discriminate H|].
    split; [fails|]. split; [fails|]. split; [fails|].
    intros e He. injection He as <-. do 2 eexists. split; [reflexivity|].
    left. split; reflexivity.
Qed.

Lemma Start_stops_at_first_failure_witness :
  exists ms' w' err calls,
    Start os_stdout_pipe_fails fresh_shell quiet_world = Returns (ms', w', err)
    /\ trace w' = (trace quiet_world ++ calls)%list
    /\ ~ In CallStart calls.
Proof.
  destruct (Start_stops_at_first_failure os_stdout_pipe_fails fresh_shell
              quiet_world ltac:(discriminate))
    as (ms' & w' & err & calls & HS & Ht & _ & _ & _ & _ & _ & _ & Hlaunch & _).
  exists ms', w', err, calls. split; [exact HS|]. split; [exact Ht|].
  intros Hin. apply Hlaunch in Hin.
  destruct Hin as (hin & hout & herr & _ & H & _). discriminate H.
Defined.

(** X6. No way back from a teardown.  After a [Stop] that has torn a
    process down and returned no error, every [Start] panics: the command
    is gone.  After a [Stop] on a shell that had no process, [Start] does
    what it would have done before. *)
Theorem Start_after_Stop
        (os : StopOS) (ms ms' : ManagedShell) (w w' : World) :
  Stop os ms w = Returns (ms', w', None) ->
  (has_process ms = true ->
   forall sos w2, Start sos ms' w2 = Panics)
  /\ (has_process ms = false ->
      forall sos w2, Start sos ms' w2 = Start sos ms w2).
Proof.
  unfold Stop. destruct (has_process ms) eqn:Hp; cbn [negb].
  - destruct (stdin ms); [|discriminate].
    intros H. split; [|discriminate]. intros _ sos w2.
    destruct (cmdWait os) as [e|].
    + destruct (as_ExitError e); [|discriminate].
      injection H as <- _. reflexivity.
    + injection H as <- _. reflexivity.
  - intros H. injection H as <- _. split; [discriminate | reflexivity].
Qed.

Lemma Start_after_Stop_witness :
  Start os_start_ok stopped quiet_world = Panics.
Proof.
  refine (proj1 (Start_after_Stop os_killed started_shell stopped started_world
                   _ eq_refl) eq_refl os_start_ok quiet_world).
Defined.

(** X7. A second [Start] on a running shell.  When the stdin pipe is
    refused, [Start] returns the wrapped error and has already stored a nil
    stdin handle, while the process handle stays.  From then on [Execute]
    panics instead of returning an error, and so does [Stop]: the child can
    no longer be stopped through this shell. *)
Theorem Start_again_breaks_running_shell
        (os : StartOS) (ms : ManagedShell) (w : World) (cause : error) :
  Running ms ->
  StdinPipe os = Failed cause ->
  exists ms' w',
    Start os ms w
    = Returns (ms', w', Some (wrapError "failed to get stdin pipe" cause))
    /\ has_process ms' = true /\ stdin ms' = None
    /\ stdout ms' = stdout ms /\ stderr ms' = stderr ms
    /\ (forall eos command w2, Execute eos command ms' w2 = Panics)
    /\ (forall sos w2, Stop sos ms' w2 = Panics).
Proof.
  intros (Hp & _) Hpipe. unfold Start.
  destruct (cmd ms) as [c|] eqn:Hc.
  - rewrite Hpipe. do 2 eexists. split; [reflexivity|].
    assert (Hp' : has_process (set_stdin None ms) = true) by exact Hp.
    repeat split; try assumption.
    + intros eos command w2. unfold Execute. rewrite Hp'. reflexivity.
    + intros sos w2. unfold Stop. rewrite Hp'. reflexivity.
  - unfold has_process in Hp. rewrite Hc in Hp. discriminate.
Qed.

Lemma Start_again_breaks_running_shell_witness :
  exists ms' w',
    Start {| StdinPipe := Failed (errorString "exec: Stdin already set");
             StdoutPipe := Ok 4; StderrPipe := Ok 5; cmdStart := Ok 4242 |}
      started_shell started_world
    = Returns (ms', w',
               Some (wrapError "failed to get stdin pipe"
                       (errorString "exec: Stdin already set")))
    /\ Execute os_write_ok "echo hello" ms' w' = Panics
    /\ Stop os_killed ms' w' = Panics.
Proof.
  destruct (Start_again_breaks_running_shell
              {| StdinPipe := Failed (errorString "exec: Stdin already set");
                 StdoutPipe := Ok 4; StderrPipe := Ok 5; cmdStart := Ok 4242 |}
              started_shell started_world
              (errorString "exec: Stdin already set")
              started_shell_Running eq_refl)
    as (ms' & w' & HS & _ & _ & _ & _ & HE & HSt).
  exists ms', w'. split; [exact HS|]. split; [apply HE | apply HSt].
Defined.

(** X8. [Stop] always reaps.  On a running shell, whatever closing the
    input, killing the process and waiting for it answer, [Stop] makes
    exactly the three calls close, kill and wait, in this order, and apart
    from them only logs; it writes nothing to the child and reads nothing
    from its pipes. *)
Theorem Stop_closes_kills_waits (os : StopOS) (ms : ManagedShell) (w : World) :
  Running ms ->
  exists ms' w' err new,
    Stop os ms w = Returns (ms', w', err)
    /\ trace w' = (trace w ++ new)%list
    /\ filter (fun e => negb (lifetime.is_Log e)) new
       = [CallClose; CallKill; CallWait]
    /\ stdout_pipe w' = stdout_pipe w /\ stderr_pipe w' = stderr_pipe w.
Proof.
  intros (Hp & Hin & _). unfold Stop. rewrite Hp. cbn [negb].
  destruct (stdin ms); [clear Hin | contradiction].
  destruct (stdinClose os) as [e1|], (processKill os) as [e2|],
    (cmdWait os) as [e3|];
    try destruct (as_ExitError e3);
    do 3 eexists;
    (eexists; split; [reflexivity|]; split;
     [cbn [trace emit]; rewrite <- ?app_assoc; cbn [app]; reflexivity|];
     split; [reflexivity|]; split; reflexivity).
Qed.

Lemma Stop_closes_kills_waits_witness :
  exists ms' w' err new,
    Stop os_wait_again started_shell started_world = Returns (ms', w', err)
    /\ trace w' = (trace started_world ++ new)%list
    /\ filter (fun e => negb (lifetime.is_Log e)) new
       = [CallClose; CallKill; CallWait].
Proof.
  destruct (Stop_closes_kills_waits os_wait_again started_shell started_world
              started_shell_Running)
    as (ms' & w' & err & new & HS & Ht & Hf & _).
  exists ms', w', err, new. repeat split; assumption.
Defined.

(** ** Labels *)

Lemma Contains_In (lst : loader.LabelList) (l : loader.Label) :
  loader.Contains lst l = true <-> In l lst.
Proof.
  induction lst as [|x lst IH]; cbn [loader.Contains In].
  - split; [discriminate | contradiction].
  - destruct (String.eqb_spec x l) as [->|Hne].
    + split; [now left | reflexivity].
    + rewrite IH. split; [now right | intros [H|H]; [contradiction | exact H]].
Qed.

Lemma contains_all_incl (lst other : loader.LabelList) :
  loader.contains_all lst other = true <-> incl other lst.
Proof.
  induction other as [|x other IH]; cbn [loader.contains_all].
  - split; [intros _ l H; contradiction | reflexivity].
  - destruct (loader.Contains lst x) eqn:Hx; cbn [negb].
    + rewrite IH. apply Contains_In in Hx. split.
      * intros H l [<-|Hl]; [exact Hx | now apply H].
      * intros H l Hl. apply H. now right.
    + split; [discriminate|]. intros H.
      assert (Hin : In x lst) by (apply H; now left).
      apply Contains_In in Hin. congruence.
Qed.

(** X9. [Equals] returns true exactly when the two lists are equally long
    and every label of [other] occurs in [lst]; so it returns true for the
    same labels in any order, and for a list compared with itself. *)
Theorem Equals_length_and_inclusion (lst other : loader.LabelList) :
  (loader.Equals lst other = true <->
   List.length lst = List.length other /\ incl other lst)
  /\ (Permutation lst other -> loader.Equals lst other = true)
  /\ loader.Equals lst lst = true.
Proof.
  assert (Hspec : forall a b,
             loader.Equals a b = true <->
             List.length a = List.length b /\ incl b a).
  { intros a b. unfold loader.Equals.
    destruct (Nat.eqb_spec (List.length a) (List.length b)) as [Hlen|Hlen];
      cbn [negb].
    - rewrite contains_all_incl. tauto.
    - split; [discriminate | tauto]. }
  split; [apply Hspec|]. split.
  - intros HP. apply Hspec. split.
    + now apply Permutation_length.
    + intros l Hl. apply Permutation_sym in HP.
      exact (Permutation_in l HP Hl).
  - apply Hspec. split; [reflexivity | apply incl_refl].
Qed.

Lemma Equals_length_and_inclusion_witness :
  loader.Equals ["sleep"; "skip"; "test"] ["test"; "sleep"; "skip"] = true.
Proof.
  refine (proj1 (proj2 (Equals_length_and_inclusion
                          ["sleep"; "skip"; "test"] ["test"; "sleep"; "skip"])) _).
  apply (perm_trans (l' := ["sleep"; "test"; "skip"])).
  - apply perm_skip. apply perm_swap.
  - apply (perm_trans (l' := ["test"; "sleep"; "skip"])).
    + apply perm_swap.
    + apply Permutation_refl.
Defined.

(** X10. When [other] holds no label twice, [Equals] returning true means
    that the two lists hold the same labels, each as often, and then the
    comparison the other way round returns true as well. *)
Theorem Equals_without_duplicates (lst other : loader.LabelList) :
  NoDup other ->
  loader.Equals lst other = true ->
  Permutation lst other /\ loader.Equals other lst = true.
Proof.
  intros Hnd HE.
  apply (proj1 (Equals_length_and_inclusion lst other)) in HE.
  destruct HE as [Hlen Hincl].
  assert (HP : Permutation other lst).
  { apply NoDup_Permutation_bis; [exact Hnd | lia | exact Hincl]. }
  split; [now apply Permutation_sym|].
  exact (proj1 (proj2 (Equals_length_and_inclusion other lst)) HP).
Qed.

Lemma Equals_without_duplicates_witness :
  Permutation ["skip"; "sleep"] ["sleep"; "skip"]
  /\ loader.Equals ["sleep"; "skip"] ["skip"; "sleep"] = true.
Proof.
  apply (Equals_without_duplicates ["skip"; "sleep"] ["sleep"; "skip"]).
  - constructor.
    + intros [H|[]]. discriminate H.
    + constructor; [intros [] | constructor].
  - reflexivity.
Defined.

(** X11. With a label twice in [other], [Equals] can return true for lists
    of different contents, and the answer depends on which list is the
    receiver: for two different labels, the pair of both equals twice the
    first, but twice the first does not equal the pair. *)
Theorem Equals_not_symmetric (a b : loader.Label) :
  a <> b ->
  loader.Equals [a; b] [a; a] = true
  /\ loader.Equals [a; a] [a; b] = false
  /\ ~ Permutation [a; b] [a; a].
Proof.
  intros Hne. unfold loader.Equals. cbn.
  rewrite String.eqb_refl. cbn.
  destruct (String.eqb_spec a b) as [Heq|_]; [contradiction|].
  repeat split. intros HP.
  assert (Hin : In b [a; a]) by (apply (Permutation_in b HP); cbn; tauto).
  destruct Hin as [H|[H|[]]]; now apply Hne.
Qed.

Lemma Equals_not_symmetric_witness :
  loader.Equals [loader.SleepLabel; loader.SkipLabel]
    [loader.SleepLabel; loader.SleepLabel] = true
  /\ loader.Equals [loader.SleepLabel; loader.SleepLabel]
       [loader.SleepLabel; loader.SkipLabel] = false.
Proof.
  destruct (Equals_not_symmetric loader.SleepLabel loader.SkipLabel
              ltac:(discriminate)) as (H1 & H2 & _).
  split; assumption.
Defined.

(** ** Block names *)

Lemma store_in_range (done rest : list string) (x v : string) :
  loader.store (done ++ x :: rest)%list (List.length done) v
  = Returns (done ++ v :: rest)%list.
Proof.
  induction done as [|y done IH]; [reflexivity|].
  cbn [app List.length loader.store]. now rewrite IH.
Qed.

Section BlockNames.

Variable CodeBlock : Type.
Variable UniqName : CodeBlock -> string.

Lemma name_blocks_map (cbs : list CodeBlock) :
  forall done,
    loader.name_blocks CodeBlock UniqName
      (done ++ repeat EmptyString (List.length cbs))%list (List.length done) cbs
    = Returns (done ++ map UniqName cbs)%list.
Proof.
  induction cbs as [|block cbs IH]; intros done.
  - reflexivity.
  - cbn [List.length repeat loader.name_blocks map].
    rewrite store_in_range. cbn [bind].
    specialize (IH (done ++ [UniqName block])%list).
    rewrite <- !app_assoc, length_app in IH. cbn [app List.length] in IH.
    rewrite Nat.add_1_r in IH. exact IH.
Qed.

(** X12. [NewBlockNameList] never indexes outside the slice it has made:
    it returns the unique names of the blocks, one for each block and in
    the order of the blocks; for no blocks, the empty list. *)
Theorem NewBlockNameList_names_in_order (cbs : list CodeBlock) :
  loader.NewBlockNameList CodeBlock UniqName cbs = Returns (map UniqName cbs)
  /\ (forall names,
         loader.NewBlockNameList CodeBlock UniqName cbs = Returns names ->
         List.length names = List.length cbs
         /\ forall j block, nth_error cbs j = Some block ->
                            nth_error names j = Some (UniqName block)).
Proof.
  assert (H : loader.NewBlockNameList CodeBlock UniqName cbs
              = Returns (map UniqName cbs))
    by exact (name_blocks_map cbs []).
  split; [exact H|]. intros names Hn. rewrite H in Hn. injection Hn as <-.
  split; [apply length_map|].
  intros j block Hj. now apply map_nth_error.
Qed.

End BlockNames.

Lemma NewBlockNameList_names_in_order_witness :
  List.length ["block1"; "block2"] = 2
  /\ forall j block,
       nth_error ["b1"; "b2"] j = Some block ->
       nth_error ["block1"; "block2"] j
       = Some (String "b" (String "l" (String "o" (String "c" (String "k"
                 (substring 1 1 block)))))).
Proof.
  refine (proj2 (NewBlockNameList_names_in_order string
                   (fun b => String "b" (String "l" (String "o" (String "c"
                      (String "k" (substring 1 1 b))))))
                   ["b1"; "b2"]) ["block1"; "block2"] eq_refl).
Defined.

(** ** The handler that runs a code block *)

Section Handler.

Variable json_Marshal : server.ExecResponse -> Result string.


(** X14. What [Execute] returns is answered in the body, never by a
    status.  For a POST whose body was read to its end, once [Execute] has
    returned, with an error or without, and the response has been
    marshalled, the handler sets the content type, writes the JSON as the
    only body, sets no error status and closes the request body last; the
    field [Error] of the response is the message of the error of
    [Execute], and empty when there was none. *)
Theorem handleRunCodeBlock_answers_in_band
        (os : ExecuteOS) (writeErr : option error) (ws : server.Server)
        (r : server.Request) (w w' : World) (ms : ManagedShell)
        (command out errout js : string) (rest : io.Pipe) (err : option error) :
  server.Method r = "POST" ->
  server.managedShell ws = Some ms ->
  io.ReadAll (server.Body r) EmptyString = Returns (command, None, rest) ->
  Execute os command ms w = Returns (out, errout, err, w') ->
  json_Marshal
    {| server.Stdout := out; server.Stderr := errout;
       server.Error := match err with
                       | Some e => Error e
                       | None => EmptyString
                       end |} = Ok js ->
  exists evs,
    server.handleRunCodeBlock json_Marshal os writeErr ws r w = Returns (evs ++ [server.CloseBody], w')%list
    /\ filter server.is_HttpError evs = []
    /\ ~ In server.CloseBody evs
    /\ (forall body, In (server.Write body) evs <-> body = js)
    /\ In (server.SetHeader "Content-Type" "application/json") evs.
Proof.
  intros Hm Hs Hread HE Hjs.
  unfold server.handleRunCodeBlock.
  rewrite Hm, String.eqb_refl, Hs, Hread. cbn [negb bind].
  rewrite HE. cbn [bind]. unfold server.message. rewrite Hjs.
  eexists. split; [rewrite !app_assoc; reflexivity|].
  destruct err as [e|], writeErr as [we|]; cbn [app filter server.is_HttpError In];
    (split; [reflexivity|]; split; [intuition discriminate|]; split;
     [ intros body; split;
       [ intros H; repeat (destruct H as [H|H]; try discriminate H);
         try contradiction; now injection H as <-
       | intros ->; auto 10 ]
     | auto 10 ]).
Qed.

End Handler.


Lemma handleRunCodeBlock_answers_in_band_witness :
  exists evs,
    server.handleRunCodeBlock plain_Marshal os_write_ok None
      {| server.managedShell := Some fresh_shell |} (a_post "ls") quiet_world
    = Returns (evs ++ [server.CloseBody], quiet_world)%list
    /\ filter server.is_HttpError evs = []
    /\ In (server.Write "||shell process not started") evs.
Proof.
  assert (Hpost : server.Method (a_post "ls") = "POST") by reflexivity.
  assert (Hshell : server.managedShell {| server.managedShell := Some fresh_shell |}
                   = Some fresh_shell) by reflexivity.
  assert (Hbody : io.ReadAll (server.Body (a_post "ls")) EmptyString
                  = Returns ("ls", None, [])) by reflexivity.
  assert (Hexec : Execute os_write_ok "ls" fresh_shell quiet_world
                  = Returns (EmptyString, EmptyString,
                             Some (errorString "shell process not started"),
                             quiet_world)) by reflexivity.
  assert (Hjson : plain_Marshal
                    {| server.Stdout := EmptyString; server.Stderr := EmptyString;
                       server.Error := Error (errorString "shell process not started") |}
                  = Ok "||shell process not started") by reflexivity.
  destruct (handleRunCodeBlock_answers_in_band plain_Marshal os_write_ok None
              {| server.managedShell := Some fresh_shell |} (a_post "ls")
              quiet_world quiet_world fresh_shell "ls" EmptyString EmptyString
              "||shell process not started" []
              (Some (errorString "shell process not started"))
              Hpost Hshell Hbody Hexec Hjson)
    as (evs & HR & Hf & _ & HW & _).
  exists evs. split; [exact HR|]. split; [exact Hf|]. now apply HW.
Defined.

(** X15. A request that is never answered.  For a POST whose body was
    read to its end, on a running shell whose input takes the write, when
    the delimiter arrives on standard output while no [Read] on standard
    error reports the end of the stream or an error, the handler writes no
    response at all: it does not return. *)
Theorem handleRunCodeBlock_never_answers
        (json_Marshal : server.ExecResponse -> Result string)
        (os : ExecuteOS) (writeErr : option error) (ws : server.Server)
        (r : server.Request) (w : World) (ms : ManagedShell)
        (command buf : string) (rest out_rest : io.Pipe) (logs : list Event) :
  server.Method r = "POST" ->
  server.managedShell ws = Some ms ->
  io.ReadAll (server.Body r) EmptyString = Returns (command, None, rest) ->
  Running ms ->
  stdinWrite os = None ->
  read_stdout (stdout_pipe w) EmptyString = Returns (buf, logs, out_rest) ->
  Forall io.no_error (stderr_pipe w) ->
  server.handleRunCodeBlock json_Marshal os writeErr ws r w = Blocks.
Proof.
  intros Hm Hs Hread HR Hw Hout Hopen.
  unfold server.handleRunCodeBlock.
  rewrite Hm, String.eqb_refl, Hs, Hread. cbn [negb bind].
  rewrite (Execute_running _ _ _ _ HR Hw), Hout. cbn [bind].
  rewrite stderr_pipe_emit_all. cbn [with_stdout_pipe emit stderr_pipe].
  now rewrite (ReadAll_open_pipe _ _ Hopen).
Qed.

Lemma handleRunCodeBlock_never_answers_witness :
  server.handleRunCodeBlock plain_Marshal os_write_ok None a_server
    (a_post "echo hello")
    {| trace := []; stdout_pipe := hello_stdout; stderr_pipe := [] |}
  = Blocks.
Proof.
  apply (handleRunCodeBlock_never_answers plain_Marshal os_write_ok None
           a_server (a_post "echo hello")
           {| trace := []; stdout_pipe := hello_stdout; stderr_pipe := [] |}
           started_shell "echo hello"
           ("hello" ++ newline ++ delimiter ++ newline) [] [] []).
  - reflexivity.
  - reflexivity.
  - reflexivity.
  - exact started_shell_Running.
  - reflexivity.
  - reflexivity.
  - constructor.
Defined.

(** ** Trimming *)

Lemma rev_onto_app (s acc : string) :
  strings.rev_onto s acc = strings.rev s ++ acc.
Proof.
  unfold strings.rev. revert acc. induction s as [|c s IH]; intros acc.
  - reflexivity.
  - cbn [strings.rev_onto]. rewrite (IH (String c acc)), (IH (String c EmptyString)).
    now rewrite append_assoc.
Qed.

Lemma rev_app (a b : string) :
  strings.rev (a ++ b) = strings.rev b ++ strings.rev a.
Proof.
  induction a as [|c a IH].
  - cbn. now rewrite append_nil_r.
  - unfold strings.rev in *. cbn [append strings.rev_onto].
    rewrite (rev_onto_app (a ++ b)), (rev_onto_app a).
    unfold strings.rev. rewrite IH. now rewrite append_assoc.
Qed.

Lemma rev_involutive (s : string) : strings.rev (strings.rev s) = s.
Proof.
  induction s as [|c s IH]; [reflexivity|].
  unfold strings.rev at 2. cbn [strings.rev_onto].
  rewrite rev_onto_app, rev_app, IH. reflexivity.
Qed.

(** What is left by the trimming loop starts with no rune of the kind it
    drops. *)
Lemma trim_with_done (width : string -> nat) :
  width EmptyString = 0 ->
  forall s k, width (strings.trim_with width k s) = 0.
Proof.
  intros H0. induction s as [|c s IH]; intros k; [exact H0|].
  cbn [strings.trim_with]. destruct k as [|k]; [|apply IH].
  destruct (width (String c s)) eqn:Hw; [exact Hw | apply IH].
Qed.

(** The trimming loop only drops bytes from the front. *)
Lemma trim_with_suffix (width : string -> nat) (s : string) :
  forall k, exists p, s = p ++ strings.trim_with width k s.
Proof.
  induction s as [|c s IH]; intros k.
  - now exists EmptyString.
  - cbn [strings.trim_with]. destruct k as [|k].
    + destruct (width (String c s)).
      * now exists EmptyString.
      * destruct (IH n) as [p Hp]. exists (String c p). cbn. now rewrite <- Hp.
    + destruct (IH k) as [p Hp]. exists (String c p). cbn. now rewrite <- Hp.
Qed.

Lemma trim_with_nothing (width : string -> nat) (s : string) :
  width s = 0 -> strings.trim_with width 0 s = s.
Proof.
  intros H. destruct s as [|c s]; [reflexivity|].
  cbn [strings.trim_with]. now rewrite H.
Qed.

(** Whether a string starts with a white-space rune does not depend on
    bytes that are not there: a string that starts with none has no head
    that starts with one. *)
Lemma spaceWidth_head (a b : string) :
  strings.spaceWidth (a ++ b) = 0 -> strings.spaceWidth a = 0.
Proof.
  destruct a as [|c [|d [|e a]]]; [reflexivity | | |]; cbn [append]; intros H;
    destruct c as [[] [] [] [] [] [] [] []];
    first [ exact H | reflexivity | (cbv in H; discriminate H) ].
Qed.

Lemma TrimSpace_trimmed (s : string) :
  strings.spaceWidth (strings.TrimSpace s) = 0
  /\ strings.spaceWidthLast (strings.rev (strings.TrimSpace s)) = 0.
Proof.
  unfold strings.TrimSpace, strings.TrimRightSpace.
  set (t := strings.TrimLeftSpace s).
  set (X := strings.trim_with strings.spaceWidthLast 0 (strings.rev t)).
  split.
  - destruct (trim_with_suffix strings.spaceWidthLast (strings.rev t) 0)
      as [p Hp]. fold X in Hp.
    assert (Ht : t = strings.rev X ++ strings.rev p).
    { rewrite <- (rev_involutive t), Hp. apply rev_app. }
    apply (spaceWidth_head _ (strings.rev p)). rewrite <- Ht.
    apply (trim_with_done strings.spaceWidth eq_refl).
  - rewrite rev_involutive.
    apply (trim_with_done strings.spaceWidthLast eq_refl).
Qed.

(** X16. What [Execute] returns as stdout is trimmed.  On a running
    shell, the stdout that a returning [Execute] hands back starts with no
    white-space rune and ends with none, ASCII or not; its first byte, if
    there is one, is none of tab, newline, vertical tab, form feed,
    carriage return and space; trimming it again changes nothing. *)
Theorem Execute_stdout_is_trimmed
        (os : ExecuteOS) (command : string) (ms : ManagedShell) (w w' : World)
        (out errout : string) (err : option error) :
  Running ms ->
  Execute os command ms w = Returns (out, errout, err, w') ->
  strings.spaceWidth out = 0
  /\ strings.spaceWidthLast (strings.rev out) = 0
  /\ (forall c rest, out = String c rest -> strings.asciiSpace c = false)
  /\ strings.TrimSpace out = out.
Proof.
  intros HR HE.
  assert (Hout : strings.spaceWidth out = 0
                 /\ strings.spaceWidthLast (strings.rev out) = 0).
  { destruct HR as (Hp & Hin & Hout & Herr). unfold Execute in HE.
    rewrite Hp in HE. cbn [negb] in HE.
    destruct (stdin ms); [|contradiction].
    destruct (stdinWrite os).
    - injection HE as <- _ _ _. split; reflexivity.
    - destruct (stdout ms); [|contradiction].
      destruct (read_stdout _ _) as [[[buf logs] rest]| |]; cbn [bind] in HE;
        try discriminate.
      destruct (stderr ms); [|contradiction].
      destruct (io.ReadAll _ _) as [[[bytes e] rest']| |]; cbn [bind] in HE;
        try discriminate.
      injection HE as <- _ _ _. apply TrimSpace_trimmed. }
  destruct Hout as [Hl Hr]. split; [exact Hl|]. split; [exact Hr|]. split.
  - intros c rest ->. cbn [strings.spaceWidth] in Hl.
    destruct (strings.asciiSpace c); [discriminate Hl | reflexivity].
  - unfold strings.TrimSpace, strings.TrimRightSpace, strings.TrimLeftSpace.
    rewrite (trim_with_nothing _ _ Hl), (trim_with_nothing _ _ Hr).
    apply rev_involutive.
Qed.

Lemma Execute_stdout_is_trimmed_witness :
  strings.TrimSpace "hello" = "hello".
Proof.
  assert (Hrun : Execute os_write_ok "echo hello" started_shell
                   {| trace := []; stdout_pipe := hello_stdout;
                      stderr_pipe := [at_EOF] |}
                 = Returns ("hello", EmptyString, None,
                            {| trace := [CallWrite (fullCommand "echo hello")];
                               stdout_pipe := []; stderr_pipe := [] |}))
    by reflexivity.
  exact (proj2 (proj2 (proj2 (Execute_stdout_is_trimmed os_write_ok "echo hello"
                                started_shell _ _ _ _ _
                                started_shell_Running Hrun)))).
Defined.
